(** * HoleFiller (landlab/components/sink_fill/fill_sinks.py)

    A shallow embedding of the [HoleFiller] component and the proofs of its
    specification.

    - Elevations are rationals ([Q]): the arithmetic of the source is
      floating point, here it is exact.  The statements are about the order
      of the elevations and about the operations the code performs; none
      rests on an addition and a subtraction cancelling each other, which
      rounding does not keep.  Node ids are integers ([Z]) and
      arrays are lists, indexed the way numpy indexes them: a negative index
      counts from the end, an index out of range raises [IndexError].
    - The methods run in a state-and-exception monad over the state they
      share: the two arrays the component holds, its snapshot, the node
      fields of the grid and the attributes of the two collaborators.  The
      [while] loops take fuel.
    - The grid, the flow router and the depression mapper are not part of
      the component; they are parameters ([Grid], [Collaborators]).  A
      collaborator reads the elevations and writes node fields and its own
      attributes.  [self.at_node] and [self.grid] are read as the grid's
      field store and the grid.
    - The names [mg] (line 138) and [original_elev] (line 178) are bound
      neither in [fill_pits], nor in the module, nor among the builtins:
      evaluating them raises [NameError], and the embedding does so.
      [StandardError] is the builtin of Python 2, which the module is
      written for. *)

From Stdlib Require Import QArith Qabs Lqa.
From stdpp Require Import gmap strings list fin_maps sorting.

Local Open Scope Z_scope.

(** ** numpy arrays *)

Module np.

(** [a[i]]: a negative index counts from the end; out of range there is
    no value (the source raises [IndexError]). *)
Definition index {A} (a : list A) (i : Z) : option A :=
  let n := Z.of_nat (length a) in
  if bool_decide (0 ≤ i < n) then a !! Z.to_nat i
  else if bool_decide (- n ≤ i < 0) then a !! Z.to_nat (i + n)
  else None.

(** [a[i] = v] *)
Definition put {A} (a : list A) (i : Z) (v : A) : option (list A) :=
  let n := Z.of_nat (length a) in
  if bool_decide (0 ≤ i < n) then Some (<[Z.to_nat i := v]> a)
  else if bool_decide (- n ≤ i < 0) then Some (<[Z.to_nat (i + n) := v]> a)
  else None.

(** [a[idx]] for an index array [idx] *)
Definition take {A} (a : list A) (idx : list Z) : option (list A) :=
  mapM (index a) idx.

(** [a[idx]] for a two-dimensional index array, row by row *)
Definition take2 {A} (a : list A) (idx : list (list Z)) : option (list (list A)) :=
  mapM (take a) idx.

(** [a[idx] = vals] for an index array [idx] and as many values *)
Fixpoint put_all {A} (a : list A) (idx : list Z) (vals : list A) : option (list A) :=
  match idx, vals with
  | [], [] => Some a
  | i :: idx', v :: vals' => a' ← put a i v; put_all a' idx' vals'
  | _, _ => None
  end.

(** [np.where(p(a))[0]]: the positions of [a] whose entry satisfies [p],
    in increasing order, counted from [i]. *)
Fixpoint where_from {A} (p : A → bool) (i : Z) (a : list A) : list Z :=
  match a with
  | [] => []
  | x :: a' => if p x then i :: where_from p (i + 1) a' else where_from p (i + 1) a'
  end.

Definition where_ {A} (p : A → bool) (a : list A) : list Z := where_from p 0 a.

(** [np.unique]: the sorted array of the distinct values *)
Definition unique (a : list Z) : list Z := merge_sort Z.le (remove_dups a).

(** [np.union1d(a, b)], on the flattened arrays *)
Definition union1d (a b : list Z) : list Z := unique (a ++ b).

(** [np.setdiff1d(a, b)]: the sorted distinct values of [a] that are not in [b] *)
Definition setdiff1d (a b : list Z) : list Z :=
  filter (λ x, x ∉ b) (unique a).

(** [np.intersect1d(a, b)] *)
Definition intersect1d (a b : list Z) : list Z :=
  filter (λ x, x ∈ b) (unique a).

(** [a.sum()] of an integer array *)
Definition sum (a : list Z) : Z := foldr Z.add 0 a.

(** Broadcasting a one-dimensional array to length [n]. *)
Definition broadcast_to {A} (n : nat) (b : list A) : option (list A) :=
  if bool_decide (length b = n) then Some b
  else match b with
       | [x] => Some (replicate n x)
       | _ => None
       end.

End np.

(** ** The grid (collaborator: its class is not part of this component) *)

Record Grid := {
  node_x : list Q;
  node_y : list Q;
  (** one row of [get_neighbor_list]: the orthogonal neighbours of a node *)
  neighbor_row : Z → list Z;
  (** one row of [get_diagonal_list] *)
  diagonal_row : Z → list Z;
  (** the distance of a node to a point, [get_distances_of_nodes_to_point] *)
  distance_to_point : Q * Q → Z → Q
}.

Definition get_neighbor_list (g : Grid) (nodes : list Z) : list (list Z) :=
  neighbor_row g <$> nodes.

Definition get_diagonal_list (g : Grid) (nodes : list Z) : list (list Z) :=
  diagonal_row g <$> nodes.

Definition get_distances_of_nodes_to_point (g : Grid) (p : Q * Q)
    (node_subset : list Z) : list Q :=
  distance_to_point g p <$> node_subset.

(** [get_lake_ext_margin] (lines 209-216) *)
Definition get_lake_ext_margin (g : Grid) (lake_nodes : list Z) : list Z :=
  let all_poss := np.union1d (mjoin (get_neighbor_list g lake_nodes))
                             (mjoin (get_diagonal_list g lake_nodes)) in
  let lake_ext_edge := np.setdiff1d all_poss lake_nodes in
  lake_ext_edge.

(** [get_lake_int_margin] (lines 218-225) *)
Definition get_lake_int_margin (g : Grid) (lake_nodes lake_ext_edge : list Z) : list Z :=
  let all_poss_int := np.union1d (mjoin (get_neighbor_list g lake_ext_edge))
                                 (mjoin (get_diagonal_list g lake_ext_edge)) in
  let lake_int_edge := np.intersect1d all_poss_int lake_nodes in
  lake_int_edge.

(** ** The mutable state and the collaborators *)

(** What the component reads of the depression mapper [self._lf]. *)
Record LakeMapper := {
  lake_outlets : list Z;
  depression_outlet : list Z;
  flood_status : list Z
}.

(** What the component reads of the flow router [self._fr]. *)
Record FlowRouter := {
  pit_node_ids : list Z
}.

(** The state one call of [fill_pits] works on.  [_elev] and
    [sed_fill_depth] are the two arrays the component holds (the grid's
    elevation field and its [sediment_fill__depth] field); [at_node] is the
    grid's store of the other node fields, by name. *)
Record World := {
  _elev : list Q;
  original_elev : list Q;
  sed_fill_depth : list Q;
  at_node : gmap string (list Q);
  _lf : LakeMapper;
  _fr : FlowRouter
}.

(** The collaborators: the grid, the module constant [BAD_INDEX_VALUE], and
    the two components the filler drives.  Their classes are not part of
    this component; a collaborator reads the elevations and updates the
    grid's node fields and its own attributes. *)
Record Collaborators := {
  _grid : Grid;
  BAD_INDEX_VALUE : Z;
  lf_output_var_names : gset string;
  fr_output_var_names : gset string;
  route_flow :
    list Q → gmap string (list Q) → FlowRouter → gmap string (list Q) * FlowRouter;
  map_depressions :
    option (list Z) → bool → list Q → gmap string (list Q) → LakeMapper →
    gmap string (list Q) * LakeMapper
}.

(** ** Exceptions and the monad of the methods *)

Inductive exn :=
| NameError (name : string)
| FieldError (name : string)
| IndexError
| ValueError
| StandardError (msg : string).

(** A method either returns a value, or raises, in both cases leaving a
    state behind, or is still running when the fuel of its loops is spent. *)
Inductive outcome (A : Type) :=
| Ok (a : A) (w : World)
| Raise (e : exn) (w : World)
| OutOfFuel.
Arguments Ok {A} a w.
Arguments Raise {A} e w.
Arguments OutOfFuel {A}.

Definition M (A : Type) : Type := World → outcome A.

#[export] Instance M_ret : MRet M := λ A a w, Ok a w.
#[export] Instance M_bind : MBind M := λ A B f m w,
  match m w with
  | Ok a w' => f a w'
  | Raise e w' => Raise e w'
  | OutOfFuel => OutOfFuel
  end.

Definition raise {A} (e : exn) : M A := λ w, Raise e w.
Definition out_of_fuel {A} : M A := λ _, OutOfFuel.
Definition gets {A} (f : World → A) : M A := λ w, Ok (f w) w.
Definition modify (f : World → World) : M unit := λ w, Ok () (f w).

(** A numpy operation that has no result raises the given exception. *)
Definition or_raise {A} (e : exn) (o : option A) : M A :=
  match o with Some a => mret a | None => raise e end.

Definition pass : M unit := mret ().

Fixpoint for_each {A} (l : list A) (body : A → M unit) : M unit :=
  match l with
  | [] => pass
  | x :: l' => body x ≫= λ _, for_each l' body
  end.

(** A bare name that neither the function, nor the module (its lines 7-19
    bind the imports and the class), nor the builtins bind: evaluating it
    raises [NameError]. *)
Definition unbound_name {A} (name : string) : M A := raise (NameError name).

(** State updates *)
Definition set_elev (e : list Q) (w : World) : World :=
  {| _elev := e; original_elev := original_elev w;
     sed_fill_depth := sed_fill_depth w; at_node := at_node w;
     _lf := _lf w; _fr := _fr w |}.
Definition set_original_elev (e : list Q) (w : World) : World :=
  {| _elev := _elev w; original_elev := e;
     sed_fill_depth := sed_fill_depth w; at_node := at_node w;
     _lf := _lf w; _fr := _fr w |}.
Definition set_sed_fill_depth (e : list Q) (w : World) : World :=
  {| _elev := _elev w; original_elev := original_elev w;
     sed_fill_depth := e; at_node := at_node w;
     _lf := _lf w; _fr := _fr w |}.
Definition set_at_node (f : gmap string (list Q)) (w : World) : World :=
  {| _elev := _elev w; original_elev := original_elev w;
     sed_fill_depth := sed_fill_depth w; at_node := f;
     _lf := _lf w; _fr := _fr w |}.

(** ** Elementwise arithmetic *)

(** [x >= y] *)
Definition ge_bool (x y : Q) : bool := Qle_bool y x.

(** [a + b] with [b] broadcast to the shape of [a] (as in [a += b]) *)
Definition iadd (a b : list Q) : option (list Q) :=
  b' ← np.broadcast_to (length a) b; Some (zip_with Qplus a b').

(** [a - b] *)
Definition sub (a b : list Q) : option (list Q) :=
  if bool_decide (length a = length b) then Some (zip_with Qminus a b)
  else match a, b with
       | _, [y] => Some ((λ x, x - y)%Q <$> a)
       | [x], _ => Some ((λ y, x - y)%Q <$> b)
       | _, _ => None
       end.

(** [edge_elevs >= neighbor_elevs], where [edge_elevs] is a column (one
    entry per row of [neighbor_elevs]) *)
Definition ge_rows (edge_elevs : list Q) (neighbor_elevs : list (list Q)) : list (list bool) :=
  zip_with (λ e row, ge_bool e <$> row) edge_elevs neighbor_elevs.

(** [np.allclose] of two boolean arrays of one shape: they are equal *)
Definition allclose (a b : list (list bool)) : bool := bool_decide (a = b).

(** The truth value of the argument [apply_slope] ([None] and zero are false) *)
Definition truthy (apply_slope : option Q) : bool :=
  match apply_slope with
  | None => false
  | Some s => negb (Qeq_bool s 0)
  end.

(** ** The methods of [HoleFiller] *)

Section HoleFiller.

Variable C : Collaborators.

(** [self._fr.route_flow()] *)
Definition call_route_flow : M unit := λ w,
  let '(f, r) := route_flow C (_elev w) (at_node w) (_fr w) in
  Ok () {| _elev := _elev w; original_elev := original_elev w;
           sed_fill_depth := sed_fill_depth w; at_node := f;
           _lf := _lf w; _fr := r |}.

(** [self._lf.map_depressions(pits=..., reroute_flow=...)] *)
Definition call_map_depressions (pits : option (list Z)) (reroute_flow : bool) : M unit := λ w,
  let '(f, l) := map_depressions C pits reroute_flow (_elev w) (at_node w) (_lf w) in
  Ok () {| _elev := _elev w; original_elev := original_elev w;
           sed_fill_depth := sed_fill_depth w; at_node := f;
           _lf := l; _fr := _fr w |}.

(** [self.at_node[name]] ([at_node] is the grid's; the attribute comes
    from the base class [Component], which is not part of this component) *)
Definition field (name : string) : M (list Q) :=
  f ← gets at_node; or_raise (FieldError name) (f !! name).

(** [self._elev += vals] *)
Definition iadd_elev (vals : list Q) : M unit :=
  e ← gets _elev; e' ← or_raise ValueError (iadd e vals); modify (set_elev e').

(** [self._elev[:] = vals] *)
Definition assign_elev (vals : list Q) : M unit :=
  e ← gets _elev;
  e' ← or_raise ValueError (np.broadcast_to (length e) vals);
  modify (set_elev e').

(** [drainage_directions_change] (lines 246-259): true if the drainage
    structure at the lake margin changes, false otherwise. *)
Definition drainage_directions_change (lake_nodes : list Z)
    (old_elevs new_elevs : list Q) : M bool :=
  let ext_edge := get_lake_ext_margin (_grid C) lake_nodes in
  let edge_neighbors := get_neighbor_list (_grid C) ext_edge in
  old_neighbor_elevs ← or_raise IndexError (np.take2 old_elevs edge_neighbors);
  new_neighbor_elevs ← or_raise IndexError (np.take2 new_elevs edge_neighbors);
  edge_elevs ← or_raise IndexError (np.take old_elevs ext_edge);
  let cond := allclose (ge_rows edge_elevs old_neighbor_elevs)
                       (ge_rows edge_elevs new_neighbor_elevs) in
  mret (negb cond).

(** [add_slopes] (lines 193-207): adds an incline towards the outlet to
    the nodes of the lake, in a copy of the elevations. *)
Definition add_slopes (slope : Q) (outlet_node : Z) : M (list Q * list Z) :=
  new_elevs ← gets _elev;
  x ← or_raise IndexError (np.index (node_x (_grid C)) outlet_node);
  y ← or_raise IndexError (np.index (node_y (_grid C)) outlet_node);
  let outlet_coord := (x, y) in
  outlets ← gets (λ w, depression_outlet (_lf w));
  let lake_nodes := np.where_ (λ o, bool_decide (o = outlet_node)) outlets in
  let lake_ext_margin := get_lake_ext_margin (_grid C) lake_nodes in
  let dists := get_distances_of_nodes_to_point (_grid C) outlet_coord lake_nodes in
  let add_vals := (λ d, slope * d)%Q <$> dists in
  cur ← or_raise IndexError (np.take new_elevs lake_nodes);
  new_elevs ← or_raise IndexError
                (np.put_all new_elevs lake_nodes (zip_with Qplus cur add_vals));
  mret (new_elevs, lake_nodes).

(** [apply_slope_current_lake] (lines 227-244); [fuel] bounds the
    iterations of its [while 1]. *)
Fixpoint apply_slope_current_lake (fuel : nat) (apply_slope : Q)
    (outlet_node : Z) (sublake : bool) : M unit :=
  match fuel with
  | O => out_of_fuel
  | S fuel' =>
      starting_elevs ← gets _elev;
      '(new_elevs, lake_nodes) ← add_slopes apply_slope outlet_node;
      assign_elev new_elevs;;
      let ext_edge := get_lake_ext_margin (_grid C) lake_nodes in
      if sublake then pass
      else
        elev ← gets _elev;
        changed ← drainage_directions_change lake_nodes starting_elevs elev;
        if (changed : bool) then pass
        else
          (* put the elevs back... *)
          vals ← or_raise IndexError (np.take starting_elevs lake_nodes);
          elev ← gets _elev;
          elev' ← or_raise IndexError (np.put_all elev lake_nodes vals);
          modify (set_elev elev');;
          (* the slope was too big. Reduce it. *)
          apply_slope_current_lake fuel' (apply_slope * (1 # 10))%Q outlet_node sublake
  end.

(** The loop of lines 136-140 over the output fields of the two
    collaborators.  Its body evaluates [mg], which nothing binds. *)
Fixpoint capture_fields (fields : list string)
    (existing_fields : gmap string (list Q)) (spurious_fields : gset string)
    : M (gmap string (list Q) * gset string) :=
  match fields with
  | [] => mret (existing_fields, spurious_fields)
  | field :: fields' =>
      mg_at_node ← unbound_name "mg";
      match (mg_at_node : gmap string (list Q)) !! field with
      | Some a => capture_fields fields' (<[field := a]> existing_fields) spurious_fields
      | None => (* FieldError: not there; good! *)
          capture_fields fields' existing_fields ({[field]} ∪ spurious_fields)
      end
  end.

(** The inner [while 1] of lines 156-168. *)
Fixpoint slope_rounds (fuel : nat) (apply_slope : Q) (sublake : bool) : M unit :=
  match fuel with
  | O => out_of_fuel
  | S fuel' =>
      outlets ← gets (λ w, lake_outlets (_lf w));
      for_each outlets
        (λ outlet_node, apply_slope_current_lake fuel' apply_slope outlet_node sublake);;
      call_map_depressions None false;;
      outlets ← gets (λ w, lake_outlets (_lf w));
      if bool_decide (np.sum outlets = 0) then pass
      else
        depth ← field "depression__depth";
        iadd_elev depth;;
        slope_rounds fuel' apply_slope true
  end.

(** The [while unstable] of lines 155-183. *)
Fixpoint stabilise (fuel : nat) (apply_slope : Q) (sublake : bool)
    (stability_increment : nat) : M unit :=
  match fuel with
  | O => out_of_fuel
  | S fuel' =>
      slope_rounds fuel' apply_slope sublake;;
      (* final test that all lakes are not reversing flow dirs *)
      status ← gets (λ w, flood_status (_lf w));
      let all_lakes := np.where_ (λ s, bool_decide (s < BAD_INDEX_VALUE C)) status in
      original ← gets original_elev;
      elev ← gets _elev;
      unstable ← drainage_directions_change all_lakes original elev;
      if (unstable : bool) then
        let apply_slope := (apply_slope * (1 # 10))%Q in
        let sublake := false in
        original_elev ← unbound_name "original_elev";
        assign_elev original_elev;;  (* put back init conds *)
        let stability_increment := S stability_increment in
        if bool_decide (stability_increment = 10%nat) then
          raise (StandardError
                   "Filler could not find a stable condition with a sloping surface!")
        else stabilise fuel' apply_slope sublake stability_increment
      else pass
  end.

(** [fill_pits] (lines 107-191), the main method. *)
Definition fill_pits (fuel : nat) (apply_slope : option Q) : M unit :=
  e ← gets _elev;
  modify (set_original_elev e);;
  '(existing_fields, spurious_fields) ←
    capture_fields (elements (lf_output_var_names C ∪ fr_output_var_names C)) ∅ ∅;
  call_route_flow;;
  pits ← gets (λ w, pit_node_ids (_fr w));
  call_map_depressions (Some pits) false;;
  (* add the depression depths to get up to flat: *)
  depth ← field "depression__depth";
  iadd_elev depth;;
  match apply_slope with
  | Some slope =>
      if truthy apply_slope then stabilise fuel slope false 0 else pass
  | None => pass
  end;;
  (* now put back any fields that were present initially, and wipe the rest: *)
  for_each (elements spurious_fields)
    (λ delete_me, modify (λ w, set_at_node (delete delete_me (at_node w)) w));;
  for_each (map_to_list existing_fields)
    (λ update_me, modify (λ w, set_at_node (<[update_me.1 := update_me.2]> (at_node w)) w));;
  (* fill the output field *)
  e ← gets _elev;
  o ← gets original_elev;
  d ← or_raise ValueError (sub e o);
  s ← gets sed_fill_depth;
  s' ← or_raise ValueError (np.broadcast_to (length s) d);
  modify (set_sed_fill_depth s').

End HoleFiller.

(** ** The constructor (lines 48-105) *)

Module Init.

(** The exceptions that [initialize] raises *)
Inductive error :=
| AttributeError
| MissingKeyError (key : string)
| FieldError (name : string).

(** [inputs.read_string(key)], where [inputs] is [None], which has no such
    method, or a parameter dictionary, which raises [MissingKeyError] for a
    key it does not hold. *)
Definition read_string (inputs : option (gmap string string)) (key : string)
    : error + string :=
  match inputs with
  | None => inl AttributeError
  | Some d =>
      match d !! key with
      | Some v => inr v
      | None => inl (MissingKeyError key)
      end
  end.

(** [self._grid.at_node[name]] *)
Definition at_node_get (fields : gmap string (list Q)) (name : string)
    : error + list Q :=
  match fields !! name with
  | Some a => inr a
  | None => inl (FieldError name)
  end.

(** [initialize] (lines 56-105), as [__init__] calls it.  [fields] is the
    store of the node fields of the grid and [number_of_nodes] the number of
    its nodes; [input_stream] is [None] or the parameter dictionary that the
    input is, or is read into by [ModelParameterDictionary]; [lf] and [fr]
    are the two collaborators as their constructors leave them.  The grid
    and the dictionary raise what the [except] clauses of the method name:
    [FieldError] for a field the grid does not hold, [MissingKeyError] for a
    key the dictionary does not hold; [add_zeros] and the two constructors
    (lines 101-105) are code of other modules and are taken to return.  The
    result is the name of the field that holds the elevations and the state
    of the component: its two arrays, and the other node fields. *)
Definition initialize (fields : gmap string (list Q)) (number_of_nodes : nat)
    (lf : LakeMapper) (fr : FlowRouter) (input_stream : option (gmap string string))
    : error + (string * World) :=
  let inputs := input_stream in
  let found :=
    match at_node_get fields "topographic__elevation" with
    | inr elev => inr ("topographic__elevation", elev)
    | inl _ =>
        (* except FieldError *)
        match read_string inputs "ELEVATION_FIELD_NAME" with
        | inl AttributeError => inl AttributeError
        | inl (MissingKeyError _) => inl (MissingKeyError "ELEVATION_FIELD_NAME")
        | inl e => inl e
        | inr topo_field_name =>
            match at_node_get fields topo_field_name with
            | inr elev => inr (topo_field_name, elev)
            | inl e =>
                (* a FieldError: the clause [except AttributeError] lets it through *)
                inl e
            end
        end
    end in
  match found with
  | inl e => inl e
  | inr (name, elev) =>
      (* create the only new output field: *)
      inr (name,
           {| _elev := elev; original_elev := [];
              sed_fill_depth := replicate number_of_nodes 0%Q;
              at_node := delete "sediment_fill__depth" (delete name fields);
              _lf := lf; _fr := fr |})
  end.

End Init.

(** ** Notions used to state the properties *)

(** The nodes of the lake that drains at [outlet_node] *)
Definition lake_of (w : World) (outlet_node : Z) : list Z :=
  np.where_ (λ o, bool_decide (o = outlet_node)) (depression_outlet (_lf w)).

(** The value [add_slopes] writes at a lake node *)
Definition tilted (C : Collaborators) (w : World) (slope : Q) (p : Q * Q) (z : Z) : Q :=
  (default 0 (_elev w !! Z.to_nat z) + slope * distance_to_point (_grid C) p z)%Q.

(** The drainage relation [elevs[e] >= elevs[n]], where both nodes have an
    elevation *)
Definition drains (elevs : list Q) (e n : Z) : option bool :=
  x ← np.index elevs e; y ← np.index elevs n; Some (ge_bool x y).

(** What [drainage_directions_change] looks for: a margin node [e] and an
    orthogonal neighbour [n] of it such that [old[e] >= old[n]] and
    [old[e] >= new[n]] differ (the elevation of the margin node is the old
    one on both sides). *)
Definition relation_flips (g : Grid) (lake_nodes : list Z) (old_elevs new_elevs : list Q) : Prop :=
  ∃ e n oe on nn,
    e ∈ get_lake_ext_margin g lake_nodes ∧ n ∈ neighbor_row g e ∧
    np.index old_elevs e = Some oe ∧
    np.index old_elevs n = Some on ∧ np.index new_elevs n = Some nn ∧
    ge_bool oe on ≠ ge_bool oe nn.

(** The relation of the specification: a margin node [e] and an orthogonal
    neighbour [n] of it such that [elevs[e] >= elevs[n]] evaluated under the
    old elevations differs from the same relation evaluated under the new
    elevations. *)
Definition relation_flips_between_states (g : Grid) (lake_nodes : list Z)
    (old_elevs new_elevs : list Q) : Prop :=
  ∃ e n b b',
    e ∈ get_lake_ext_margin g lake_nodes ∧ n ∈ neighbor_row g e ∧
    drains old_elevs e n = Some b ∧ drains new_elevs e n = Some b' ∧ b ≠ b'.

(** From [w] to [w'] the elevations only went up; the snapshot and the
    output array are the same. *)
Definition rises (w w' : World) : Prop :=
  original_elev w' = original_elev w ∧ sed_fill_depth w' = sed_fill_depth w ∧
  Forall2 Qle (_elev w) (_elev w').

(** From [w] to [w'] the snapshot and the output array are the same. *)
Definition same_snapshot (w w' : World) : Prop :=
  original_elev w' = original_elev w ∧ sed_fill_depth w' = sed_fill_depth w.

(** The exceptions other than the fatal error of the stabilization loop *)
Definition not_fatal (e : exn) : Prop :=
  match e with StandardError _ => False | _ => True end.

(** A computation that raises exceptions of the kind [P] only *)
Definition raises_only {A} (P : exn → Prop) (m : M A) : Prop :=
  ∀ w e w', m w = Raise e w' → P e.

(** The depression mapper supplies non-negative depths. *)
Definition depths_nonneg (C : Collaborators) : Prop :=
  ∀ pits reroute_flow elev f l d,
    (map_depressions C pits reroute_flow elev f l).1 !! "depression__depth" = Some d →
    Forall (Qle 0) d.

(** The grid measures non-negative distances. *)
Definition distances_nonneg (g : Grid) : Prop :=
  ∀ p z, (0 <= distance_to_point g p z)%Q.

(** The nodes the final test of [fill_pits] takes as flooded: those whose
    flood status is below [BAD_INDEX_VALUE]. *)
Definition all_lakes (C : Collaborators) (w : World) : list Z :=
  np.where_ (λ s, bool_decide (s < BAD_INDEX_VALUE C)) (flood_status (_lf w)).

(** ** Further notions *)

(** [y] is an orthogonal or a diagonal neighbour of [x] *)
Definition adjacent (g : Grid) (x y : Z) : Prop :=
  y ∈ neighbor_row g x ∨ y ∈ diagonal_row g x.

(** The slope after [k] reductions: each one multiplies it by 0.1 *)
Definition reduced_slope (slope : Q) (k : nat) : Q :=
  Nat.iter k (λ q, (q * (1 # 10))%Q) slope.

(** What holds when [m], started in [w], returns ([Q]) or raises ([E]) *)
Definition on_exit {A} (m : M A) (w : World)
    (Q : A → World → Prop) (E : exn → World → Prop) : Prop :=
  match m w with
  | Ok a w' => Q a w'
  | Raise e w' => E e w'
  | OutOfFuel => True
  end.

(** From [w0] to [w] the snapshot and the output array are the same, and
    the elevations are related by [J]. *)
Definition kept (J : list Q → list Q → Prop) (w0 w : World) : Prop :=
  original_elev w = original_elev w0 ∧ sed_fill_depth w = sed_fill_depth w0 ∧
  J (_elev w0) (_elev w).

(** A computation that leaves the state as it is, whether it returns or raises *)
Definition reads_only {A} (m : M A) : Prop :=
  ∀ w, on_exit m w (λ _ w', w' = w) (λ _ w', w' = w).

(** The depths that the state holds are [good] *)
Definition depth_good (good : list Q → Prop) (w : World) : Prop :=
  ∀ d, at_node w !! "depression__depth" = Some d → good d.

(** ** Concrete grids and collaborators *)

Module Scenario.

(** A row of [n] nodes on the line [y = 0], node [i] at [x = i]; the
    orthogonal neighbours of a node are the nodes next to it, and there are
    no diagonal neighbours.  The distance of a node to a point of the line
    is the absolute difference of the abscissas. *)
Definition line_x (n : nat) : list Q := (λ i : nat, inject_Z (Z.of_nat i)) <$> seq 0 n.

Definition line_grid (n : nat) : Grid := {|
  node_x := line_x n;
  node_y := replicate n 0%Q;
  neighbor_row := λ i, filter (λ j, 0 ≤ j < Z.of_nat n) [i - 1; i + 1];
  diagonal_row := λ _, [];
  distance_to_point := λ p i,
    match np.index (line_x n) i with
    | Some x => Qabs (x - p.1)
    | None => 0%Q
    end
|}.

(** The value of [BAD_INDEX_VALUE] in landlab: the largest 32-bit integer. *)
Definition bad : Z := 2147483647.

Definition no_lakes (n : nat) : LakeMapper :=
  {| lake_outlets := []; depression_outlet := replicate n bad;
     flood_status := replicate n 0 |}.

(** A flow router that reports the given pits and writes no field. *)
Definition router (pits : list Z) :
    list Q → gmap string (list Q) → FlowRouter → gmap string (list Q) * FlowRouter :=
  λ _ f _, (f, {| pit_node_ids := pits |}).

(** Five nodes in a row with elevations [5, 3, 1, 2, 0]: node 2 is a pit,
    it fills up to the level of node 3, its outlet, which drains to node 4. *)
Definition valley : list Q := [5; 3; 1; 2; 0]%Q.

Definition valley_world : World := {|
  _elev := valley; original_elev := []; sed_fill_depth := replicate 5 0%Q;
  at_node := ∅; _lf := no_lakes 5; _fr := {| pit_node_ids := [] |}
|}.

(** The mapper on the valley: called with the pits of the flow router it
    reports the lake [{2}] with outlet 3 and depth 1; called again without
    pits, on the filled surface, it finds no depression. *)
Definition valley_mapper (final_status : list Z) :
    option (list Z) → bool → list Q → gmap string (list Q) → LakeMapper →
    gmap string (list Q) * LakeMapper :=
  λ pits _ _ f _,
    match pits with
    | Some _ =>
        (<["depression__depth" := [0; 0; 1; 0; 0]%Q]> f,
         {| lake_outlets := [3]; depression_outlet := [bad; bad; 3; bad; bad];
            flood_status := [0; 0; 3; 0; 0] |})
    | None =>
        (<["depression__depth" := replicate 5 0%Q]> f,
         {| lake_outlets := []; depression_outlet := replicate 5 bad;
            flood_status := final_status |})
    end.

(** The collaborators declare no output field of their own here, so the
    loop of lines 136-140 has nothing to go through. *)
Definition valley_collab (final_status : list Z) : Collaborators := {|
  _grid := line_grid 5;
  BAD_INDEX_VALUE := bad;
  lf_output_var_names := ∅;
  fr_output_var_names := ∅;
  route_flow := router [2];
  map_depressions := valley_mapper final_status
|}.

(** The valley after the flat fill: the lake [{2}] stands at the level of
    its outlet, node 3. *)
Definition valley_lake : LakeMapper :=
  {| lake_outlets := [3]; depression_outlet := [bad; bad; 3; bad; bad];
     flood_status := [0; 0; 3; 0; 0] |}.

Definition filled_valley_world : World := {|
  _elev := [5; 3; 2; 2; 0]%Q; original_elev := valley;
  sed_fill_depth := replicate 5 0%Q;
  at_node := {["depression__depth" := [0; 0; 1; 0; 0]%Q]};
  _lf := valley_lake; _fr := {| pit_node_ids := [2] |}
|}.

(** A deeper valley, whose lake node stays below its neighbours when it is
    tilted by a slope of at most 1. *)
Definition deep_valley_world : World := {|
  _elev := [5; 9; 1; 3; 0]%Q; original_elev := [5; 9; 1; 3; 0]%Q;
  sed_fill_depth := replicate 5 0%Q;
  at_node := ∅;
  _lf := valley_lake; _fr := {| pit_node_ids := [2] |}
|}.

(** The valley with collaborators that declare the fields they write, as
    the components of landlab do. *)
Definition declaring_collab (final_status : list Z) : Collaborators := {|
  _grid := line_grid 5;
  BAD_INDEX_VALUE := bad;
  lf_output_var_names := {["depression__depth"]};
  fr_output_var_names := {["flow_receiver"]};
  route_flow := router [2];
  map_depressions := valley_mapper final_status
|}.

(** Five nodes in a row with elevations [3, 3, 1, 3, 0], node 0 on the open
    boundary.  Node 2 is a pit and fills up to the level of its outlet,
    node 3.  Once the lake is tilted towards node 3, node 1 has no lower
    neighbour left (node 0 is level with it, node 2 is above): it is a
    depression of its own, of depth 0, that drains at node 0. *)
Definition ridge : list Q := [3; 3; 1; 3; 0]%Q.

Definition ridge_world : World := {|
  _elev := ridge; original_elev := []; sed_fill_depth := replicate 5 0%Q;
  at_node := ∅; _lf := no_lakes 5; _fr := {| pit_node_ids := [] |}
|}.

Definition ridge_mapper :
    option (list Z) → bool → list Q → gmap string (list Q) → LakeMapper →
    gmap string (list Q) * LakeMapper :=
  λ pits _ elev f _,
    match pits with
    | Some _ =>
        (<["depression__depth" := [0; 0; 2; 0; 0]%Q]> f,
         {| lake_outlets := [3]; depression_outlet := [bad; bad; 3; bad; bad];
            flood_status := [0; 0; 3; 0; 0] |})
    | None =>
        match np.index elev 1, np.index elev 2 with
        | Some a, Some b =>
            if Qle_bool b a then (<["depression__depth" := replicate 5 0%Q]> f, no_lakes 5)
            else
              (<["depression__depth" := replicate 5 0%Q]> f,
               {| lake_outlets := [0]; depression_outlet := [bad; 0; bad; bad; bad];
                  flood_status := [0; 3; 0; 0; 0] |})
        | _, _ => (<["depression__depth" := replicate 5 0%Q]> f, no_lakes 5)
        end
    end.

Definition ridge_collab : Collaborators := {|
  _grid := line_grid 5;
  BAD_INDEX_VALUE := bad;
  lf_output_var_names := ∅;
  fr_output_var_names := ∅;
  route_flow := router [2];
  map_depressions := ridge_mapper
|}.

(** The ridge after the flat fill *)
Definition filled_ridge_world : World := {|
  _elev := [3; 3; 3; 3; 0]%Q; original_elev := ridge;
  sed_fill_depth := replicate 5 0%Q;
  at_node := {["depression__depth" := [0; 0; 2; 0; 0]%Q]};
  _lf := {| lake_outlets := [3]; depression_outlet := [bad; bad; 3; bad; bad];
            flood_status := [0; 0; 3; 0; 0] |};
  _fr := {| pit_node_ids := [2] |}
|}.

(** The valley once [fill_pits] has returned from a fill with slope 1, the
    mapper leaving [final_status] as the flood status of its last pass. *)
Definition sloped_valley_world (final_status : list Z) : World := {|
  _elev := [5; 3; 3; 2; 0]%Q; original_elev := valley;
  sed_fill_depth := [0; 0; 2; 0; 0]%Q;
  at_node := {["depression__depth" := replicate 5 0%Q]};
  _lf := {| lake_outlets := []; depression_outlet := replicate 5 bad;
            flood_status := final_status |};
  _fr := {| pit_node_ids := [2] |}
|}.

(** The same state before the last lines of [fill_pits] have written the
    output array. *)
Definition tilted_valley_world (final_status : list Z) : World :=
  set_sed_fill_depth (replicate 5 0%Q) (sloped_valley_world final_status).

(** The ridge once [fill_pits] has returned from a fill with slope 1. *)
Definition sloped_ridge_world : World := {|
  _elev := [3; 3; 4; 3; 0]%Q; original_elev := ridge;
  sed_fill_depth := [0; 0; 3; 0; 0]%Q;
  at_node := {["depression__depth" := replicate 5 0%Q]};
  _lf := {| lake_outlets := [0]; depression_outlet := [bad; 0; bad; bad; bad];
            flood_status := [0; 3; 0; 0; 0] |};
  _fr := {| pit_node_ids := [2] |}
|}.

(** Collaborators whose mapper writes no field at all *)
Definition silent_collab : Collaborators := {|
  _grid := line_grid 5;
  BAD_INDEX_VALUE := bad;
  lf_output_var_names := ∅;
  fr_output_var_names := ∅;
  route_flow := router [2];
  map_depressions := λ _ _ _ f l, (f, l)
|}.

(** The valley once [fill_pits] has returned from a flat fill *)
Definition flat_valley_world : World := {|
  _elev := [5; 3; 2; 2; 0]%Q; original_elev := valley;
  sed_fill_depth := [0; 0; 1; 0; 0]%Q;
  at_node := {["depression__depth" := [0; 0; 1; 0; 0]%Q]};
  _lf := valley_lake; _fr := {| pit_node_ids := [2] |}
|}.

(** Five nodes in a row with elevations [5, 5/2, 1, 2, 0]: the valley with
    node 1 lower, above the level the lake [{2}] fills to and below the
    level its tilt by a slope of 1 reaches.  Node 1 is on the margin of the
    lake and is not its outlet. *)
Definition shelf : list Q := [5; 5 # 2; 1; 2; 0]%Q.

Definition shelf_world : World := {|
  _elev := shelf; original_elev := []; sed_fill_depth := replicate 5 0%Q;
  at_node := ∅; _lf := no_lakes 5; _fr := {| pit_node_ids := [] |}
|}.

(** The shelf after the flat fill *)
Definition filled_shelf_world : World := {|
  _elev := [5; 5 # 2; 2; 2; 0]%Q; original_elev := shelf;
  sed_fill_depth := replicate 5 0%Q;
  at_node := {["depression__depth" := [0; 0; 1; 0; 0]%Q]};
  _lf := valley_lake; _fr := {| pit_node_ids := [2] |}
|}.

(** A grid that holds its elevations in a field of another name *)
Definition renamed_fields : gmap string (list Q) :=
  {["surface" := valley]}.

End Scenario.

(** ** Facts about the array operations *)

Lemma elem_of_unique (a : list Z) (x : Z) : x ∈ np.unique a ↔ x ∈ a.
Proof.
  unfold np.unique. rewrite merge_sort_Permutation. apply elem_of_remove_dups.
Qed.

Lemma NoDup_unique (a : list Z) : NoDup (np.unique a).
Proof.
  unfold np.unique. rewrite merge_sort_Permutation. apply NoDup_remove_dups.
Qed.

Lemma Sorted_unique (a : list Z) : Sorted Z.le (np.unique a).
Proof. unfold np.unique. apply (Sorted_merge_sort Z.le). Qed.

Lemma elem_of_union1d (a b : list Z) (x : Z) :
  x ∈ np.union1d a b ↔ x ∈ a ∨ x ∈ b.
Proof. unfold np.union1d. rewrite elem_of_unique. apply elem_of_app. Qed.

Lemma elem_of_setdiff1d (a b : list Z) (x : Z) :
  x ∈ np.setdiff1d a b ↔ x ∈ a ∧ x ∉ b.
Proof.
  unfold np.setdiff1d. rewrite list_elem_of_filter, elem_of_unique. tauto.
Qed.

Lemma elem_of_concat_rows (row : Z → list Z) (nodes : list Z) (x : Z) :
  x ∈ mjoin (row <$> nodes) ↔ ∃ l, l ∈ nodes ∧ x ∈ row l.
Proof.
  rewrite list_elem_of_join. split.
  - intros (r & Hx & Hr). apply list_elem_of_fmap in Hr as (l & -> & Hl). eauto.
  - intros (l & Hl & Hx). exists (row l). split; [done|].
    apply list_elem_of_fmap. eauto.
Qed.

Lemma StronglySorted_filter_le (P : Z → Prop) `{∀ x, Decision (P x)} (l : list Z) :
  StronglySorted Z.le l → StronglySorted Z.le (filter P l).
Proof.
  induction 1 as [|x l Hl IH Hx]; [constructor|].
  rewrite filter_cons. destruct (decide (P x)); [|done].
  constructor; [done|].
  apply Forall_forall. intros y Hy%list_elem_of_filter.
  rewrite Forall_forall in Hx. apply Hx, Hy.
Qed.

(** ** The external margin of a lake *)

(** C8. [get_lake_ext_margin] returns exactly the orthogonal and diagonal
    neighbours of the lake nodes that are not lake nodes themselves: a node
    is in the result if and only if it is an orthogonal or a diagonal
    neighbour of some lake node and is not a lake node; so the result and
    the lake have no node in common.  (The result is moreover sorted and
    without repetition, as numpy returns it.) *)
Theorem get_lake_ext_margin_spec (g : Grid) (lake_nodes : list Z) :
  (∀ x, x ∈ get_lake_ext_margin g lake_nodes ↔
        (∃ l, l ∈ lake_nodes ∧ (x ∈ neighbor_row g l ∨ x ∈ diagonal_row g l))
        ∧ x ∉ lake_nodes)
  ∧ (∀ x, x ∈ get_lake_ext_margin g lake_nodes → x ∈ lake_nodes → False)
  ∧ NoDup (get_lake_ext_margin g lake_nodes)
  ∧ Sorted Z.le (get_lake_ext_margin g lake_nodes).
Proof.
  assert (Hmem : ∀ x, x ∈ get_lake_ext_margin g lake_nodes ↔
        (∃ l, l ∈ lake_nodes ∧ (x ∈ neighbor_row g l ∨ x ∈ diagonal_row g l))
        ∧ x ∉ lake_nodes).
  { intros x. unfold get_lake_ext_margin, get_neighbor_list, get_diagonal_list.
    rewrite elem_of_setdiff1d, elem_of_union1d, !elem_of_concat_rows.
    split.
    - intros [[(l & ? & ?)|(l & ? & ?)] ?]; eauto 6.
    - intros [(l & ? & [?|?]) ?]; eauto 6. }
  split; [exact Hmem|]. split; [|split].
  - intros x Hx Hl. apply Hmem in Hx. tauto.
  - unfold get_lake_ext_margin, np.setdiff1d. apply NoDup_filter, NoDup_unique.
  - unfold get_lake_ext_margin, np.setdiff1d.
    apply StronglySorted_Sorted, StronglySorted_filter_le.
    apply Sorted_StronglySorted; [|apply Sorted_unique].
    intros x y z. apply Z.le_trans.
Qed.

(** ** Reasoning about the monad *)

Lemma bind_Ok {A B} (m : M A) (f : A → M B) (w w' : World) (b : B) :
  (m ≫= f) w = Ok b w' ↔ ∃ a w1, m w = Ok a w1 ∧ f a w1 = Ok b w'.
Proof.
  unfold mbind, M_bind. split.
  - destruct (m w) as [a w1|e w1|] eqn:Hm; [eauto|done|done].
  - intros (a & w1 & -> & Hf). done.
Qed.

Lemma or_raise_Ok {A} (e : exn) (o : option A) (w w' : World) (a : A) :
  or_raise e o w = Ok a w' ↔ o = Some a ∧ w' = w.
Proof.
  destruct o as [x|]; simpl; unfold mret, M_ret, raise; split.
  - intros [= -> ->]. done.
  - intros [[= ->] ->]. done.
  - done.
  - intros [? _]. done.
Qed.

Lemma gets_Ok {A} (f : World → A) (w w' : World) (a : A) :
  gets f w = Ok a w' ↔ a = f w ∧ w' = w.
Proof. unfold gets. split; [intros [= <- <-]|intros [-> ->]]; done. Qed.

Lemma modify_Ok (f : World → World) (w w' : World) (u : unit) :
  modify f w = Ok u w' ↔ w' = f w.
Proof. unfold modify. destruct u. split; [intros [= <-]|intros ->]; done. Qed.

Lemma pass_Ok (w w' : World) (u : unit) : pass w = Ok u w' ↔ w' = w.
Proof. unfold pass, mret, M_ret. destruct u. split; [intros [= <-]|intros ->]; done. Qed.

Lemma mret_Ok {A} (a b : A) (w w' : World) :
  (mret a : M A) w = Ok b w' ↔ b = a ∧ w' = w.
Proof. unfold mret, M_ret. split; [intros [= <- <-]|intros [-> ->]]; done. Qed.

(** Turns a hypothesis [m w = Ok a w'] into what each step of [m] returned. *)
Ltac monad_inv H :=
  repeat match type of H with
  | (_ ≫= _) _ = Ok _ _ =>
      let a := fresh "a" in let w := fresh "w" in
      let H1 := fresh "Hstep" in
      apply bind_Ok in H as (a & w & H1 & H); monad_inv H1
  | or_raise _ _ _ = Ok _ _ => apply or_raise_Ok in H as [H ->]
  | gets _ _ = Ok _ _ => apply gets_Ok in H as [-> ->]
  | modify _ _ = Ok _ _ => apply modify_Ok in H as ->
  | pass _ = Ok _ _ => apply pass_Ok in H as ->
  | mret _ _ = Ok _ _ => apply mret_Ok in H as [H ->]; simplify_eq H; intros
  end.

(** ** Facts about indexing *)

Lemma index_nonneg {A} (a : list A) (i : nat) : np.index a (Z.of_nat i) = a !! i.
Proof.
  unfold np.index. case_bool_decide as H.
  - by rewrite Nat2Z.id.
  - rewrite bool_decide_eq_false_2 by lia.
    symmetry. apply lookup_ge_None. lia.
Qed.

Lemma index_in_range {A} (a : list A) (z : Z) :
  0 ≤ z < Z.of_nat (length a) → np.index a z = a !! Z.to_nat z.
Proof. intros H. unfold np.index. by rewrite bool_decide_eq_true_2. Qed.

Lemma put_in_range {A} (a : list A) (z : Z) (v : A) :
  0 ≤ z < Z.of_nat (length a) → np.put a z v = Some (<[Z.to_nat z := v]> a).
Proof. intros H. unfold np.put. by rewrite bool_decide_eq_true_2. Qed.

Lemma put_length {A} (a a' : list A) (z : Z) (v : A) :
  np.put a z v = Some a' → length a' = length a.
Proof.
  unfold np.put. repeat case_bool_decide; intros [= <-]; apply length_insert.
Qed.

Lemma put_all_length {A} (idx : list Z) (vals a a' : list A) :
  np.put_all a idx vals = Some a' → length a' = length a.
Proof.
  revert vals a. induction idx as [|i idx IH]; intros [|v vals] a; simpl; try done.
  - by intros [= <-].
  - destruct (np.put a i v) as [a1|] eqn:Hput; simpl; [|done].
    intros H%IH. rewrite H. by eapply put_length.
Qed.

(** The positions [np.where] returns *)
Lemma elem_of_where_from {A} (p : A → bool) (a : list A) (i z : Z) :
  z ∈ np.where_from p i a ↔
  ∃ (k : nat) (x : A), a !! k = Some x ∧ p x = true ∧ z = i + Z.of_nat k.
Proof.
  revert i. induction a as [|y a IH]; intros i; simpl.
  - split; [by intros ?%elem_of_nil|by intros (k & x & ? & _)].
  - assert (Htl : z ∈ np.where_from p (i + 1) a ↔
              ∃ (k : nat) (x : A), a !! k = Some x ∧ p x = true ∧ z = i + Z.of_nat (S k)).
    { rewrite IH. split; intros (k & x & ? & ? & ->); exists k, x; repeat split; auto; lia. }
    destruct (p y) eqn:Hy.
    + rewrite elem_of_cons, Htl. split.
      * intros [->|(k & x & ? & ? & ->)]; [exists 0%nat, y|exists (S k), x]; repeat split; auto; lia.
      * intros ([|k] & x & Hk & Hx & ->); [left; lia|right; eauto].
    + rewrite Htl. split.
      * intros (k & x & ? & ? & ->). exists (S k), x. done.
      * intros ([|k] & x & Hk & Hx & ->); [simpl in Hk; congruence|eauto].
Qed.

Lemma elem_of_where {A} (p : A → bool) (a : list A) (z : Z) :
  z ∈ np.where_ p a ↔ ∃ (k : nat) (x : A), a !! k = Some x ∧ p x = true ∧ z = Z.of_nat k.
Proof. unfold np.where_. rewrite elem_of_where_from. by setoid_rewrite Z.add_0_l. Qed.

Lemma where_in_range {A} (p : A → bool) (a : list A) (z : Z) :
  z ∈ np.where_ p a → 0 ≤ z < Z.of_nat (length a).
Proof.
  intros (k & x & Hk%lookup_lt_Some & _ & ->)%elem_of_where. lia.
Qed.

(** Reading an array at positions that are all in range *)
Lemma take_in_range {A} (a : list A) (idx : list Z) :
  (∀ z, z ∈ idx → 0 ≤ z < Z.of_nat (length a)) →
  ∃ vals, np.take a idx = Some vals ∧
          Forall2 (λ z v, a !! Z.to_nat z = Some v) idx vals.
Proof.
  intros Hr. unfold np.take.
  assert (Hall : Forall (λ z, is_Some (np.index a z)) idx).
  { apply Forall_forall. intros z Hz. rewrite index_in_range by auto.
    apply lookup_lt_is_Some. specialize (Hr z Hz). lia. }
  apply mapM_is_Some_2 in Hall as [vals Hvals]. exists vals. split; [done|].
  apply mapM_Some_1 in Hvals.
  induction Hvals as [|z v idx vals Hv _ IH]; constructor.
  - rewrite <- index_in_range; [done|]. apply Hr. left.
  - apply IH. intros z' Hz'. apply Hr. by right.
Qed.

Lemma take_Some_in_range {A} (a vals : list A) (idx : list Z) :
  np.take a idx = Some vals → (∀ z, z ∈ idx → 0 ≤ z) →
  (∀ z, z ∈ idx → 0 ≤ z < Z.of_nat (length a)) ∧
  Forall2 (λ z v, a !! Z.to_nat z = Some v) idx vals.
Proof.
  intros Htake Hpos.
  assert (Hr : ∀ z, z ∈ idx → 0 ≤ z < Z.of_nat (length a)).
  { intros z Hz. split; [auto|].
    apply mapM_Some_1 in Htake.
    apply list_elem_of_lookup in Hz as [j Hj].
    destruct (Forall2_lookup_l _ _ _ _ _ Htake Hj) as (v & _ & Hv).
    unfold np.index in Hv. specialize (Hpos z (list_elem_of_lookup_2 _ _ _ Hj)).
    repeat case_bool_decide; try done; lia. }
  split; [done|].
  destruct (take_in_range a idx Hr) as (vals' & Hvals' & H). congruence.
Qed.

(** Writing at positions in range values that depend on the position only *)
Lemma put_all_spec {A} (f : Z → A) (idx : list Z) (vals a : list A) :
  (∀ z, z ∈ idx → 0 ≤ z < Z.of_nat (length a)) →
  Forall2 (λ z v, v = f z) idx vals →
  ∃ a', np.put_all a idx vals = Some a' ∧
        ∀ k : nat, a' !! k = if decide (Z.of_nat k ∈ idx)
                             then Some (f (Z.of_nat k)) else a !! k.
Proof.
  intros Hr Hvals. revert a Hr.
  induction Hvals as [|z v idx vals -> _ IH]; intros a Hr; cbn [np.put_all].
  - exists a. split; [done|]. intros k. rewrite decide_False; [done|]. apply not_elem_of_nil.
  - assert (Hz : 0 ≤ z < Z.of_nat (length a)) by (apply Hr; left).
    rewrite put_in_range by done. cbn [mbind option_bind].
    destruct (IH (<[Z.to_nat z := f z]> a)) as (a' & Ha' & Hk).
    { intros z' Hz'. rewrite length_insert. apply Hr. by right. }
    exists a'. split; [done|]. intros k. rewrite Hk.
    destruct (decide (Z.of_nat k ∈ idx)) as [Hin|Hnin].
    + rewrite decide_True; [done|by right].
    + destruct (decide (Z.of_nat k = z)) as [<-|Hne].
      * rewrite decide_True by left. rewrite Nat2Z.id.
        apply list_lookup_insert_eq. lia.
      * rewrite decide_False by (rewrite elem_of_cons; intros [?|?]; done).
        apply list_lookup_insert_ne. lia.
Qed.

(** ** [add_slopes] *)

Section AddSlopes.

Variable C : Collaborators.

Lemma elem_of_lake_of (w : World) (outlet_node : Z) (k : nat) :
  Z.of_nat k ∈ lake_of w outlet_node ↔
  depression_outlet (_lf w) !! k = Some outlet_node.
Proof.
  unfold lake_of. rewrite elem_of_where. split.
  - intros (k' & x & Hk & Hx%bool_decide_eq_true & Heq).
    apply Nat2Z.inj in Heq. by subst.
  - intros Hk. exists k, outlet_node. by rewrite bool_decide_eq_true.
Qed.

Lemma lake_of_nonneg (w : World) (outlet_node z : Z) :
  z ∈ lake_of w outlet_node → 0 ≤ z.
Proof. intros H%where_in_range. lia. Qed.

Lemma add_vals_tilted (w : World) (slope : Q) (p : Q * Q) (idx : list Z) (cur : list Q) :
  Forall2 (λ z v, _elev w !! Z.to_nat z = Some v) idx cur →
  Forall2 (λ z v, v = tilted C w slope p z) idx
    (zip_with Qplus cur
       ((λ d, slope * d)%Q <$> get_distances_of_nodes_to_point (_grid C) p idx)).
Proof.
  induction 1 as [|z v idx cur Hv _ IH]; simpl; constructor; [|done].
  unfold tilted. by rewrite Hv.
Qed.

(** What a returning call of [add_slopes] returns *)
Lemma add_slopes_Ok (slope : Q) (outlet_node : Z) (w w' : World)
    (new_elevs : list Q) (lake_nodes : list Z) :
  add_slopes C slope outlet_node w = Ok (new_elevs, lake_nodes) w' →
  w' = w ∧ lake_nodes = lake_of w outlet_node ∧
  length new_elevs = length (_elev w) ∧
  ∃ x y, np.index (node_x (_grid C)) outlet_node = Some x ∧
         np.index (node_y (_grid C)) outlet_node = Some y ∧
         ∀ k : nat, new_elevs !! k =
           if decide (Z.of_nat k ∈ lake_of w outlet_node)
           then Some (tilted C w slope (x, y) (Z.of_nat k)) else _elev w !! k.
Proof.
  unfold add_slopes. intros H. monad_inv H. subst.
  fold (lake_of w outlet_node) in *.
  match goal with
  | Hx : np.index (node_x _) _ = Some ?x, Hy : np.index (node_y _) _ = Some ?y,
    Htake : np.take _ _ = Some _, Hput : np.put_all _ _ _ = Some _ |- _ =>
      split; [done|]; split; [done|];
      split; [by apply put_all_length in Hput|];
      exists x, y; split; [done|]; split; [done|];
      destruct (take_Some_in_range _ _ _ Htake (lake_of_nonneg w outlet_node))
        as [Hr Hcur];
      destruct (put_all_spec (tilted C w slope (x, y)) _ _ _ Hr
                  (add_vals_tilted w slope (x, y) _ _ Hcur)) as (a' & Ha' & Hk);
      rewrite Ha' in Hput; by injection Hput as <-
  end.
Qed.

(** [add_slopes] returns when the outlet has coordinates and the mapper
    assigns outlets to nodes that have an elevation *)
Lemma add_slopes_returns (slope : Q) (outlet_node : Z) (w : World) (x y : Q) :
  np.index (node_x (_grid C)) outlet_node = Some x →
  np.index (node_y (_grid C)) outlet_node = Some y →
  (length (depression_outlet (_lf w)) ≤ length (_elev w))%nat →
  ∃ new_elevs, add_slopes C slope outlet_node w
               = Ok (new_elevs, lake_of w outlet_node) w.
Proof.
  intros Hx Hy Hlen. unfold add_slopes.
  fold (lake_of w outlet_node).
  assert (Hr : ∀ z, z ∈ lake_of w outlet_node → 0 ≤ z < Z.of_nat (length (_elev w))).
  { intros z Hz%where_in_range. lia. }
  destruct (take_in_range _ _ Hr) as (cur & Hcur & Hcur2).
  destruct (put_all_spec (tilted C w slope (x, y)) _ _ _ Hr
              (add_vals_tilted w slope (x, y) _ _ Hcur2)) as (a' & Ha' & Hk).
  exists a'.
  repeat (apply bind_Ok; eexists _, _; split;
          [first [by apply gets_Ok | apply or_raise_Ok; split; [eassumption|done]]|]).
  done.
Qed.

(** C7. [add_slopes(slope, outlet_node)] returns, next to the nodes of the
    lake, an array of elevations that at every node whose assigned
    depression outlet is [outlet_node] is the current elevation plus
    [slope] times the distance of the node to the coordinates of the
    outlet, and at every other node is the current elevation; the state,
    and so the shared elevation field, is left as it was.  (The call
    returns when the outlet has coordinates and the mapper assigns outlets
    to nodes that have an elevation.) *)
Theorem add_slopes_spec (slope : Q) (outlet_node : Z) (w : World) (x y : Q) :
  np.index (node_x (_grid C)) outlet_node = Some x →
  np.index (node_y (_grid C)) outlet_node = Some y →
  (length (depression_outlet (_lf w)) ≤ length (_elev w))%nat →
  ∃ new_elevs lake_nodes,
    add_slopes C slope outlet_node w = Ok (new_elevs, lake_nodes) w ∧
    length new_elevs = length (_elev w) ∧
    ∀ (k : nat) (e : Q), _elev w !! k = Some e →
      new_elevs !! k =
        Some (if bool_decide (depression_outlet (_lf w) !! k = Some outlet_node)
              then (e + slope * distance_to_point (_grid C) (x, y) (Z.of_nat k))%Q
              else e).
Proof.
  intros Hx Hy Hlen.
  destruct (add_slopes_returns slope outlet_node w x y Hx Hy Hlen) as [new_elevs Hnew].
  exists new_elevs, (lake_of w outlet_node). split; [done|].
  apply add_slopes_Ok in Hnew as (_ & _ & Hl & x' & y' & Hx' & Hy' & Hk).
  split; [done|]. intros k e He. rewrite Hk.
  assert (x' = x) as -> by congruence. assert (y' = y) as -> by congruence.
  destruct (decide (Z.of_nat k ∈ lake_of w outlet_node)) as [Hin|Hnin].
  - rewrite bool_decide_eq_true_2 by by apply elem_of_lake_of.
    unfold tilted. by rewrite Nat2Z.id, He.
  - rewrite bool_decide_eq_false_2; [done|]. by rewrite <- elem_of_lake_of.
Qed.

End AddSlopes.

(** ** [drainage_directions_change] *)

Section DrainageDirections.

Variable C : Collaborators.
Variables old_elevs new_elevs : list Q.

Lemma cons_ne_iff {A} `{EqDecision A} (x y : A) (l k : list A) :
  x :: l ≠ y :: k ↔ x ≠ y ∨ l ≠ k.
Proof.
  split.
  - intros H. destruct (decide (x = y)) as [->|]; [|by left].
    right. intros ->. done.
  - intros [H|H] [= ? ?]; done.
Qed.

(** One row of the comparison *)
Lemma row_differs (oe : Q) (nbrs : list Z) (orow nrow : list Q) :
  Forall2 (λ n v, np.index old_elevs n = Some v) nbrs orow →
  Forall2 (λ n v, np.index new_elevs n = Some v) nbrs nrow →
  ge_bool oe <$> orow ≠ ge_bool oe <$> nrow ↔
  ∃ n on nn, n ∈ nbrs ∧ np.index old_elevs n = Some on ∧
             np.index new_elevs n = Some nn ∧ ge_bool oe on ≠ ge_bool oe nn.
Proof.
  intros Ho. revert nrow.
  induction Ho as [|n on nbrs orow Hon _ IH]; intros nrow Hn.
  - apply Forall2_nil_inv_l in Hn as ->. split; [done|].
    intros (n & ? & ? & []%elem_of_nil & _).
  - apply Forall2_cons_inv_l in Hn as (nn & nrow' & Hnn & Hn & ->).
    rewrite !fmap_cons, cons_ne_iff, (IH _ Hn). split.
    + intros [H|(n' & on' & nn' & Hin & ? & ? & ?)].
      * exists n, on, nn. repeat split; auto. left.
      * exists n', on', nn'. repeat split; auto. by right.
    + intros (n' & on' & nn' & [->|Hin]%elem_of_cons & Ho' & Hn' & Hd).
      * left. congruence.
      * right. eauto 8.
Qed.

(** All the rows *)
Lemma rows_differ (edge : list Z) (edge_elevs : list Q) (orows nrows : list (list Q)) :
  Forall2 (λ e v, np.index old_elevs e = Some v) edge edge_elevs →
  Forall2 (λ e row, Forall2 (λ n v, np.index old_elevs n = Some v)
                      (neighbor_row (_grid C) e) row) edge orows →
  Forall2 (λ e row, Forall2 (λ n v, np.index new_elevs n = Some v)
                      (neighbor_row (_grid C) e) row) edge nrows →
  ge_rows edge_elevs orows ≠ ge_rows edge_elevs nrows ↔
  ∃ e n oe on nn, e ∈ edge ∧ n ∈ neighbor_row (_grid C) e ∧
    np.index old_elevs e = Some oe ∧
    np.index old_elevs n = Some on ∧ np.index new_elevs n = Some nn ∧
    ge_bool oe on ≠ ge_bool oe nn.
Proof.
  intros He. revert orows nrows.
  induction He as [|e oe edge edge_elevs Hoe _ IH]; intros orows nrows Ho Hn.
  - apply Forall2_nil_inv_l in Ho as ->. apply Forall2_nil_inv_l in Hn as ->.
    split; [done|]. intros (e & ? & ? & ? & ? & []%elem_of_nil & _).
  - apply Forall2_cons_inv_l in Ho as (orow & orows' & Horow & Ho & ->).
    apply Forall2_cons_inv_l in Hn as (nrow & nrows' & Hnrow & Hn & ->).
    unfold ge_rows. cbn [zip_with]. fold (ge_rows edge_elevs orows').
    fold (ge_rows edge_elevs nrows').
    rewrite cons_ne_iff, (IH _ _ Ho Hn), (row_differs oe _ _ _ Horow Hnrow). split.
    + intros [(n & on & nn & Hin & ? & ? & ?)|(e' & n & oe' & on & nn & Hin & ?)].
      * exists e, n, oe, on, nn. repeat split; auto. left.
      * exists e', n, oe', on, nn. split; [by right|done].
    + intros (e' & n & oe' & on & nn & [->|Hin]%elem_of_cons & Hn' & Hoe' & Hon & Hnn & Hd).
      * left. exists n, on, nn. repeat split; auto. congruence.
      * right. eauto 12.
Qed.

Lemma take_Forall2 {A} (a : list A) (idx : list Z) (vals : list A) :
  np.take a idx = Some vals ↔ Forall2 (λ z v, np.index a z = Some v) idx vals.
Proof. apply mapM_Some. Qed.

Lemma take2_Forall2 {A} (a : list A) (edge : list Z) (rows : list (list A)) :
  np.take2 a (get_neighbor_list (_grid C) edge) = Some rows ↔
  Forall2 (λ e row, Forall2 (λ n v, np.index a n = Some v)
                      (neighbor_row (_grid C) e) row) edge rows.
Proof.
  unfold np.take2, get_neighbor_list. rewrite mapM_Some, Forall2_fmap_l.
  split; intros H; (eapply Forall2_impl; [exact H|]); intros e row Hr;
    by apply take_Forall2.
Qed.


(** What a returning call of [drainage_directions_change] returns *)
Lemma drainage_directions_change_Ok (lake_nodes : list Z) (w w' : World) (b : bool) :
  drainage_directions_change C lake_nodes old_elevs new_elevs w = Ok b w' →
  w' = w ∧ (b = true ↔ relation_flips (_grid C) lake_nodes old_elevs new_elevs).
Proof.
  unfold drainage_directions_change. intros H. monad_inv H. subst.
  split; [done|].
  match goal with
  | Ho : np.take2 old_elevs _ = Some _, Hn : np.take2 new_elevs _ = Some _,
    He : np.take old_elevs _ = Some _ |- _ =>
      apply take2_Forall2 in Ho; apply take2_Forall2 in Hn; apply take_Forall2 in He;
      unfold relation_flips; rewrite <- (rows_differ _ _ _ _ He Ho Hn)
  end.
  unfold allclose. rewrite negb_true_iff, bool_decide_eq_false. done.
Qed.

(** [drainage_directions_change] returns when the margin nodes and their
    neighbours have elevations *)
Lemma drainage_directions_change_returns (lake_nodes : list Z) (w : World) :
  (∀ e, e ∈ get_lake_ext_margin (_grid C) lake_nodes → is_Some (np.index old_elevs e)) →
  (∀ e n, e ∈ get_lake_ext_margin (_grid C) lake_nodes → n ∈ neighbor_row (_grid C) e →
          is_Some (np.index old_elevs n) ∧ is_Some (np.index new_elevs n)) →
  ∃ b, drainage_directions_change C lake_nodes old_elevs new_elevs w = Ok b w.
Proof.
  intros He Hn. unfold drainage_directions_change.
  set (edge := get_lake_ext_margin (_grid C) lake_nodes) in *.
  assert (Ho : is_Some (np.take2 old_elevs (get_neighbor_list (_grid C) edge))).
  { apply mapM_is_Some_2, Forall_fmap, Forall_forall. intros e Hin.
    apply mapM_is_Some_2, Forall_forall. intros n Hnin. by apply (Hn e n). }
  assert (Hn' : is_Some (np.take2 new_elevs (get_neighbor_list (_grid C) edge))).
  { apply mapM_is_Some_2, Forall_fmap, Forall_forall. intros e Hin.
    apply mapM_is_Some_2, Forall_forall. intros n Hnin. by apply (Hn e n). }
  assert (He' : is_Some (np.take old_elevs edge)).
  { apply mapM_is_Some_2, Forall_forall. intros e Hin. by apply He. }
  destruct Ho as [orows Ho], Hn' as [nrows Hn'], He' as [ee He'].
  eexists.
  repeat (apply bind_Ok; eexists _, _; split;
          [apply or_raise_Ok; split; [eassumption|done]|]).
  done.
Qed.

(** What [drainage_directions_change(lakeNodes, oldElevs, newElevs)]
    computes.  It
    returns true if and only if there are an external-margin node [e] of
    [lakeNodes] and an orthogonal neighbour [n] of [e] such that
    [oldElevs[e] >= oldElevs[n]] differs from [oldElevs[e] >= newElevs[n]]:
    the elevation of the neighbour is taken from the respective state, that
    of the margin node from the old state on both sides.  The call returns
    (given elevations for the margin nodes and their neighbours) and leaves
    the state as it was. *)
Lemma drainage_directions_change_spec (lake_nodes : list Z) (w : World) :
  (∀ e, e ∈ get_lake_ext_margin (_grid C) lake_nodes → is_Some (np.index old_elevs e)) →
  (∀ e n, e ∈ get_lake_ext_margin (_grid C) lake_nodes → n ∈ neighbor_row (_grid C) e →
          is_Some (np.index old_elevs n) ∧ is_Some (np.index new_elevs n)) →
  ∃ b, drainage_directions_change C lake_nodes old_elevs new_elevs w = Ok b w ∧
       (b = true ↔ relation_flips (_grid C) lake_nodes old_elevs new_elevs).
Proof.
  intros He Hn.
  destruct (drainage_directions_change_returns lake_nodes w He Hn) as [b Hb].
  exists b. split; [done|]. by apply drainage_directions_change_Ok in Hb as [_ ?].
Qed.

(** Where the margin nodes keep their elevation, the comparison of the code
    is the comparison between the two states. *)
Lemma relation_flips_margin_unchanged (lake_nodes : list Z) :
  (∀ e, e ∈ get_lake_ext_margin (_grid C) lake_nodes →
        np.index new_elevs e = np.index old_elevs e) →
  relation_flips (_grid C) lake_nodes old_elevs new_elevs ↔
  relation_flips_between_states (_grid C) lake_nodes old_elevs new_elevs.
Proof.
  intros Hsame. unfold relation_flips, relation_flips_between_states, drains. split.
  - intros (e & n & oe & on & nn & He & Hn & Hoe & Hon & Hnn & Hd).
    exists e, n, (ge_bool oe on), (ge_bool oe nn). repeat split; auto.
    + by rewrite Hoe, Hon.
    + by rewrite (Hsame e He), Hoe, Hnn.
  - intros (e & n & b & b' & He & Hn & Hb & Hb' & Hd).
    rewrite (Hsame e He) in Hb'.
    destruct (np.index old_elevs e) as [oe|] eqn:Hoe; [|done].
    destruct (np.index old_elevs n) as [on|] eqn:Hon; [|done].
    destruct (np.index new_elevs n) as [nn|] eqn:Hnn; [|done].
    simpl in Hb, Hb'. injection Hb as <-. injection Hb' as <-.
    exists e, n, oe, on, nn. repeat split; auto.
Qed.

End DrainageDirections.

(** ** Elevations only go up *)

Lemma rises_refl (w : World) : rises w w.
Proof.
  repeat split. apply Forall_Forall2_diag, Forall_forall. intros. apply Qle_refl.
Qed.

Lemma rises_trans (w1 w2 w3 : World) : rises w1 w2 → rises w2 w3 → rises w1 w3.
Proof.
  intros (Ho1 & Hs1 & He1) (Ho2 & Hs2 & He2). repeat split; [congruence..|].
  eapply Forall2_trans; [|exact He1|exact He2]. intros x y z. apply Qle_trans.
Qed.

Lemma broadcast_to_Some {A} (n : nat) (b b' : list A) :
  np.broadcast_to n b = Some b' → length b' = n ∧ ∀ x, x ∈ b' → x ∈ b.
Proof.
  unfold np.broadcast_to. case_bool_decide as Hn.
  - intros [= <-]. done.
  - destruct b as [|x [|??]]; intros [= <-].
    split; [apply length_replicate|].
    intros y ->%elem_of_replicate_inv. left.
Qed.

Lemma broadcast_to_same_length {A} (b : list A) : np.broadcast_to (length b) b = Some b.
Proof. unfold np.broadcast_to. by rewrite bool_decide_eq_true_2. Qed.

Lemma iadd_raised (e d e' : list Q) :
  Forall (Qle 0) d → iadd e d = Some e' → Forall2 Qle e e'.
Proof.
  intros Hd. unfold iadd.
  destruct (np.broadcast_to (length e) d) as [d'|] eqn:Hb; [|done].
  simpl. intros [= <-]. apply broadcast_to_Some in Hb as [Hlen Hin].
  apply Forall2_same_length_lookup_2.
  - by rewrite length_zip_with_l_eq.
  - intros i x y Hx (x' & z & -> & Hx' & Hz)%lookup_zip_with_Some.
    assert (x' = x) as -> by congruence.
    assert (0 <= z)%Q.
    { rewrite Forall_forall in Hd. apply Hd, Hin. by eapply list_elem_of_lookup_2. }
    lra.
Qed.

Lemma set_elev_set_elev (e e' : list Q) (w : World) :
  set_elev e (set_elev e' w) = set_elev e w.
Proof. done. Qed.

Lemma set_elev_same (w : World) : set_elev (_elev w) w = w.
Proof. by destruct w. Qed.

(** Writing back at the lake nodes what they held undoes the tilt. *)
Lemma restore_lake (elev new_elevs vals elev' : list Q) (lake_nodes : list Z) (f : Z → Q) :
  (∀ z, z ∈ lake_nodes → 0 ≤ z) →
  length new_elevs = length elev →
  (∀ k : nat, new_elevs !! k =
     if decide (Z.of_nat k ∈ lake_nodes) then Some (f (Z.of_nat k)) else elev !! k) →
  np.take elev lake_nodes = Some vals →
  np.put_all new_elevs lake_nodes vals = Some elev' →
  elev' = elev.
Proof.
  intros Hpos Hlen Hnew Htake Hput.
  destruct (take_Some_in_range _ _ _ Htake Hpos) as [Hr Hvals].
  destruct (put_all_spec (λ z, default 0%Q (elev !! Z.to_nat z)) lake_nodes vals new_elevs)
    as (a' & Ha' & Hk).
  - intros z Hz. rewrite Hlen. by apply Hr.
  - eapply Forall2_impl; [exact Hvals|]. intros z v Hv. simpl. by rewrite Hv.
  - assert (a' = elev') as -> by congruence.
    apply list_eq. intros k. rewrite Hk.
    destruct (decide (Z.of_nat k ∈ lake_nodes)) as [Hin|Hnin].
    + rewrite Nat2Z.id. destruct (elev !! k) as [v|] eqn:Hv; [done|].
      apply lookup_ge_None in Hv. specialize (Hr _ Hin). lia.
    + rewrite Hnew. by rewrite decide_False.
Qed.

Section Rises.

Variable C : Collaborators.
Hypothesis Hdist : distances_nonneg (_grid C).

Lemma add_slopes_raised (slope : Q) (outlet_node : Z) (w w' : World)
    (new_elevs : list Q) (lake_nodes : list Z) :
  (0 <= slope)%Q →
  add_slopes C slope outlet_node w = Ok (new_elevs, lake_nodes) w' →
  Forall2 Qle (_elev w) new_elevs.
Proof.
  intros Hs (-> & -> & Hlen & x & y & _ & _ & Hk)%add_slopes_Ok.
  apply Forall2_same_length_lookup_2; [done|].
  intros i a b Ha Hb. rewrite Hk in Hb.
  destruct (decide (Z.of_nat i ∈ lake_of w outlet_node)); [|apply Qle_lteq; right; congruence].
  injection Hb as <-. unfold tilted. rewrite Nat2Z.id, Ha. simpl.
  pose proof (Qmult_le_0_compat _ _ Hs (Hdist (x, y) (Z.of_nat i))). lra.
Qed.

Lemma assign_elev_Ok (vals : list Q) (w w' : World) (u : unit) :
  assign_elev vals w = Ok u w' →
  ∃ e', np.broadcast_to (length (_elev w)) vals = Some e' ∧ w' = set_elev e' w.
Proof.
  unfold assign_elev. intros H.
  apply bind_Ok in H as (e & w0 & [-> ->]%gets_Ok & H).
  apply bind_Ok in H as (e' & w1 & [He' ->]%or_raise_Ok & H).
  apply modify_Ok in H as ->. eauto.
Qed.

Lemma iadd_elev_Ok (vals : list Q) (w w' : World) (u : unit) :
  iadd_elev vals w = Ok u w' →
  ∃ e', iadd (_elev w) vals = Some e' ∧ w' = set_elev e' w.
Proof.
  unfold iadd_elev. intros H.
  apply bind_Ok in H as (e & w0 & [-> ->]%gets_Ok & H).
  apply bind_Ok in H as (e' & w1 & [He' ->]%or_raise_Ok & H).
  apply modify_Ok in H as ->. eauto.
Qed.

(** A returning call of [apply_slope_current_lake] has raised elevations,
    and changed nothing else. *)
Lemma apply_slope_current_lake_Ok (fuel : nat) :
  ∀ (apply_slope : Q) (outlet_node : Z) (sublake : bool) (w w' : World) (u : unit),
    (0 <= apply_slope)%Q →
    apply_slope_current_lake C fuel apply_slope outlet_node sublake w = Ok u w' →
    ∃ e', w' = set_elev e' w ∧ Forall2 Qle (_elev w) e'.
Proof.
  induction fuel as [|fuel IH]; intros s o sub w w' u Hs H; [done|].
  cbn [apply_slope_current_lake] in H.
  apply bind_Ok in H as (start & w0 & [-> ->]%gets_Ok & H).
  apply bind_Ok in H as ([new lake] & w1 & Hadd & H).
  pose proof (add_slopes_raised _ _ _ _ _ _ Hs Hadd) as Hraised.
  apply add_slopes_Ok in Hadd as (-> & -> & Hlen & x & y & _ & _ & Hk).
  apply bind_Ok in H as (u' & w2 & (e' & He' & ->)%assign_elev_Ok & H).
  rewrite <- Hlen, broadcast_to_same_length in He'. injection He' as <-.
  destruct sub.
  { apply pass_Ok in H as ->. eauto. }
  apply bind_Ok in H as (elev & w3 & [-> ->]%gets_Ok & H).
  apply bind_Ok in H as (changed & w4 & [-> _]%drainage_directions_change_Ok & H).
  destruct changed.
  { apply pass_Ok in H as ->. eauto. }
  apply bind_Ok in H as (vals & w5 & [Hvals ->]%or_raise_Ok & H).
  apply bind_Ok in H as (elev & w6 & [-> ->]%gets_Ok & H).
  apply bind_Ok in H as (elev' & w7 & [Hput ->]%or_raise_Ok & H).
  apply bind_Ok in H as (u'' & w8 & ->%modify_Ok & H).
  cbn [set_elev _elev] in Hput.
  assert (elev' = _elev w) as ->.
  { eapply restore_lake; [apply lake_of_nonneg|exact Hlen|exact Hk|exact Hvals|exact Hput]. }
  rewrite set_elev_set_elev, set_elev_same in H.
  eapply IH; [|exact H].
  apply Qmult_le_0_compat; [done|]. by compute.
Qed.

End Rises.

(** ** One iteration of [apply_slope_current_lake] *)

Lemma bind_eval {A B} (m : M A) (f : A → M B) (w w1 : World) (a : A) :
  m w = Ok a w1 → (m ≫= f) w = f a w1.
Proof. intros H. unfold mbind, M_bind. by rewrite H. Qed.

(** What one iteration does, on every input: once the lake is tilted, the
    call returns if the lake is subsidiary or if the test of the drainage
    directions reports a change; if the test reports none, the elevations
    are put back and the next iteration runs with a tenth of the slope. *)
Lemma apply_slope_current_lake_step (C : Collaborators) (fuel : nat) (apply_slope : Q)
    (outlet_node : Z) (sublake changed : bool) (w : World)
    (new_elevs : list Q) (lake_nodes : list Z) :
  add_slopes C apply_slope outlet_node w = Ok (new_elevs, lake_nodes) w →
  (sublake = false →
   drainage_directions_change C lake_nodes (_elev w) new_elevs (set_elev new_elevs w)
   = Ok changed (set_elev new_elevs w)) →
  apply_slope_current_lake C (S fuel) apply_slope outlet_node sublake w
  = if sublake || changed then Ok () (set_elev new_elevs w)
    else apply_slope_current_lake C fuel (apply_slope * (1 # 10))%Q outlet_node sublake w.
Proof.
  intros Hadd Htest. cbn [apply_slope_current_lake].
  rewrite (bind_eval _ _ w w (_elev w)) by done.
  rewrite (bind_eval _ _ _ _ _ Hadd).
  pose proof Hadd as (_ & -> & Hlen & x & y & _ & _ & Hk)%add_slopes_Ok.
  assert (Hassign : assign_elev new_elevs w = Ok () (set_elev new_elevs w)).
  { unfold assign_elev. rewrite (bind_eval _ _ w w (_elev w)) by done.
    rewrite <- Hlen, broadcast_to_same_length. done. }
  rewrite (bind_eval _ _ _ _ _ Hassign).
  destruct sublake; [done|]. cbn [orb].
  rewrite (bind_eval _ _ _ _ new_elevs) by done.
  rewrite (bind_eval _ _ _ _ _ (Htest eq_refl)).
  destruct changed; [done|].
  assert (Hr : ∀ z, z ∈ lake_of w outlet_node → 0 ≤ z < Z.of_nat (length (_elev w))).
  { unfold add_slopes in Hadd. monad_inv Hadd.
    match goal with
    | Htake : np.take _ _ = Some _ |- _ =>
        apply (take_Some_in_range _ _ _ Htake (lake_of_nonneg w outlet_node))
    end. }
  destruct (take_in_range _ _ Hr) as (vals & Hvals & _).
  rewrite Hvals. cbn [or_raise].
  rewrite (bind_eval _ _ _ _ vals) by done.
  rewrite (bind_eval _ _ _ _ new_elevs) by done.
  destruct (put_all_spec (λ z, default 0%Q (_elev w !! Z.to_nat z))
              (lake_of w outlet_node) vals new_elevs) as (elev' & Hput & _).
  { intros z Hz. rewrite Hlen. by apply Hr. }
  { destruct (take_Some_in_range _ _ _ Hvals (lake_of_nonneg w outlet_node)) as [_ Hv].
    eapply Forall2_impl; [exact Hv|]. intros z v Hz. simpl. by rewrite Hz. }
  assert (elev' = _elev w) as ->.
  { eapply restore_lake; [apply lake_of_nonneg|exact Hlen|exact Hk|exact Hvals|exact Hput]. }
  rewrite Hput. cbn [or_raise].
  rewrite (bind_eval _ _ _ _ (_elev w)) by done.
  rewrite (bind_eval _ _ _ (set_elev (_elev w) (set_elev new_elevs w)) ()) by done.
  by rewrite set_elev_set_elev, set_elev_same.
Qed.

(** ** The loops of [fill_pits] *)

Section Loops.

Variable C : Collaborators.

Lemma for_each_Ok {A} (R : World → World → Prop) (l : list A) (body : A → M unit) :
  (∀ w, R w w) → (∀ w1 w2 w3, R w1 w2 → R w2 w3 → R w1 w3) →
  (∀ x w w' u, body x w = Ok u w' → R w w') →
  ∀ w w' u, for_each l body w = Ok u w' → R w w'.
Proof.
  intros Hrefl Htrans Hbody. induction l as [|x l IH]; intros w w' u H; simpl in H.
  - apply pass_Ok in H as ->. apply Hrefl.
  - apply bind_Ok in H as (u' & w1 & H1 & H). eauto.
Qed.

Lemma call_map_depressions_Ok (pits : option (list Z)) (reroute_flow : bool)
    (w w' : World) (u : unit) :
  call_map_depressions C pits reroute_flow w = Ok u w' →
  _elev w' = _elev w ∧ original_elev w' = original_elev w ∧
  sed_fill_depth w' = sed_fill_depth w ∧ _fr w' = _fr w ∧
  at_node w' = (map_depressions C pits reroute_flow (_elev w) (at_node w) (_lf w)).1 ∧
  _lf w' = (map_depressions C pits reroute_flow (_elev w) (at_node w) (_lf w)).2.
Proof.
  unfold call_map_depressions.
  destruct (map_depressions C pits reroute_flow (_elev w) (at_node w) (_lf w)) as [f l].
  intros H. by simplify_eq H; intros; subst.
Qed.

Lemma call_route_flow_Ok (w w' : World) (u : unit) :
  call_route_flow C w = Ok u w' →
  _elev w' = _elev w ∧ original_elev w' = original_elev w ∧
  sed_fill_depth w' = sed_fill_depth w ∧ _lf w' = _lf w.
Proof.
  unfold call_route_flow.
  destruct (route_flow C (_elev w) (at_node w) (_fr w)) as [f r].
  intros H. by simplify_eq H; intros; subst.
Qed.

Lemma field_Ok (name : string) (w w' : World) (d : list Q) :
  field name w = Ok d w' → at_node w !! name = Some d ∧ w' = w.
Proof.
  unfold field. intros H.
  apply bind_Ok in H as (f & w0 & [-> ->]%gets_Ok & H).
  by apply or_raise_Ok in H.
Qed.

(** Mapping the depressions and adding their depths raises the elevations. *)
Lemma fill_step_rises (pits : option (list Z)) (w w1 w2 w3 : World)
    (u u' : unit) (d : list Q) :
  depths_nonneg C →
  call_map_depressions C pits false w = Ok u w1 →
  field "depression__depth" w1 = Ok d w2 →
  iadd_elev d w2 = Ok u' w3 →
  rises w w3.
Proof.
  intros Hdepth (He & Ho & Hs & _ & Hf & _)%call_map_depressions_Ok
    [Hd ->]%field_Ok (e' & He' & ->)%iadd_elev_Ok.
  rewrite Hf in Hd. apply Hdepth in Hd.
  repeat split; [done..|]. cbn [set_elev _elev]. rewrite <- He.
  by eapply iadd_raised.
Qed.

Lemma same_snapshot_refl (w : World) : same_snapshot w w.
Proof. done. Qed.

Lemma same_snapshot_trans (w1 w2 w3 : World) :
  same_snapshot w1 w2 → same_snapshot w2 w3 → same_snapshot w1 w3.
Proof. intros [? ?] [? ?]. split; congruence. Qed.

(** [apply_slope_current_lake] writes the elevations only. *)
Lemma apply_slope_current_lake_frame (fuel : nat) :
  ∀ (apply_slope : Q) (outlet_node : Z) (sublake : bool) (w w' : World) (u : unit),
    apply_slope_current_lake C fuel apply_slope outlet_node sublake w = Ok u w' →
    ∃ e', w' = set_elev e' w.
Proof.
  induction fuel as [|fuel IH]; intros s o sub w w' u H; [done|].
  cbn [apply_slope_current_lake] in H.
  apply bind_Ok in H as (start & w0 & [-> ->]%gets_Ok & H).
  apply bind_Ok in H as ([new lake] & w1 & (-> & _)%add_slopes_Ok & H).
  apply bind_Ok in H as (u' & w2 & (e' & _ & ->)%assign_elev_Ok & H).
  destruct sub.
  { apply pass_Ok in H as ->. eauto. }
  apply bind_Ok in H as (elev & w3 & [-> ->]%gets_Ok & H).
  apply bind_Ok in H as (changed & w4 & [-> _]%drainage_directions_change_Ok & H).
  destruct changed.
  { apply pass_Ok in H as ->. eauto. }
  apply bind_Ok in H as (vals & w5 & [_ ->]%or_raise_Ok & H).
  apply bind_Ok in H as (elev & w6 & [-> ->]%gets_Ok & H).
  apply bind_Ok in H as (elev' & w7 & [_ ->]%or_raise_Ok & H).
  apply bind_Ok in H as (u'' & w8 & ->%modify_Ok & H).
  apply IH in H as [e'' ->]. eauto.
Qed.

(** The slope rounds leave the snapshot and the output array alone. *)
Lemma slope_rounds_frame (fuel : nat) :
  ∀ (apply_slope : Q) (sublake : bool) (w w' : World) (u : unit),
    slope_rounds C fuel apply_slope sublake w = Ok u w' → same_snapshot w w'.
Proof.
  induction fuel as [|fuel IH]; intros s sub w w' u H; [done|].
  cbn [slope_rounds] in H.
  apply bind_Ok in H as (outlets & w0 & [-> ->]%gets_Ok & H).
  apply bind_Ok in H as (u1 & w1 & Hlakes & H).
  apply (for_each_Ok same_snapshot _ _ same_snapshot_refl same_snapshot_trans) in Hlakes.
  2:{ by intros o v v' u' [e' ->]%apply_slope_current_lake_frame. }
  apply bind_Ok in H as (u2 & w2 & (_ & Ho & Hsd & _)%call_map_depressions_Ok & H).
  apply bind_Ok in H as (outlets' & w3 & [-> ->]%gets_Ok & H).
  eapply same_snapshot_trans; [exact Hlakes|].
  eapply same_snapshot_trans; [split; [exact Ho|exact Hsd]|].
  case_bool_decide.
  - by apply pass_Ok in H as ->.
  - apply bind_Ok in H as (d & w4 & [_ ->]%field_Ok & H).
    apply bind_Ok in H as (u3 & w5 & (e' & _ & ->)%iadd_elev_Ok & H).
    by apply IH in H.
Qed.

Hypothesis Hdist : distances_nonneg (_grid C).
Hypothesis Hdepth : depths_nonneg C.

Lemma slope_rounds_rises (fuel : nat) :
  ∀ (apply_slope : Q) (sublake : bool) (w w' : World) (u : unit),
    (0 <= apply_slope)%Q →
    slope_rounds C fuel apply_slope sublake w = Ok u w' → rises w w'.
Proof.
  induction fuel as [|fuel IH]; intros s sub w w' u Hs H; [done|].
  cbn [slope_rounds] in H.
  apply bind_Ok in H as (outlets & w0 & [-> ->]%gets_Ok & H).
  apply bind_Ok in H as (u1 & w1 & Hlakes & H).
  apply (for_each_Ok rises _ _ rises_refl rises_trans) in Hlakes.
  2:{ intros o v v' u' (e' & -> & He')%(apply_slope_current_lake_Ok C Hdist); [|done].
      by repeat split. }
  apply bind_Ok in H as (u2 & w2 & Hmap & H).
  apply bind_Ok in H as (outlets' & w3 & [-> ->]%gets_Ok & H).
  case_bool_decide.
  - apply pass_Ok in H as ->. eapply rises_trans; [exact Hlakes|].
    apply call_map_depressions_Ok in Hmap as (He & Ho & Hsd & _).
    repeat split; [done..|]. rewrite He.
    apply Forall_Forall2_diag, Forall_forall. intros. apply Qle_refl.
  - apply bind_Ok in H as (d & w4 & Hd & H).
    apply bind_Ok in H as (u3 & w5 & Hadd & H).
    eapply rises_trans; [exact Hlakes|].
    eapply rises_trans; [exact (fill_step_rises _ _ _ _ _ _ _ _ Hdepth Hmap Hd Hadd)|].
    by eapply IH.
Qed.

(** A returning [stabilise] went through one series of slope rounds, after
    which the final test found no change: nothing binds [original_elev],
    so a round that ends with a change raises. *)
Lemma stabilise_Ok (fuel : nat) (apply_slope : Q) (sublake : bool)
    (stability_increment : nat) (w w' : World) (u : unit) :
  stabilise C fuel apply_slope sublake stability_increment w = Ok u w' →
  ∃ fuel', fuel = S fuel' ∧
    slope_rounds C fuel' apply_slope sublake w = Ok () w' ∧
    drainage_directions_change C (all_lakes C w') (original_elev w') (_elev w') w'
    = Ok false w'.
Proof.
  destruct fuel as [|fuel]; [done|]. cbn [stabilise]. intros H.
  apply bind_Ok in H as ([] & w1 & Hrounds & H).
  apply bind_Ok in H as (status & w2 & [-> ->]%gets_Ok & H).
  apply bind_Ok in H as (orig & w3 & [-> ->]%gets_Ok & H).
  apply bind_Ok in H as (elev & w4 & [-> ->]%gets_Ok & H).
  apply bind_Ok in H as (unstable & w5 & Hdd & H).
  pose proof Hdd as [-> _]%drainage_directions_change_Ok.
  destruct unstable.
  - by apply bind_Ok in H as (? & ? & ? & _).
  - apply pass_Ok in H as ->. eauto.
Qed.

Lemma capture_fields_Ok (fields : list string) (existing_fields : gmap string (list Q))
    (spurious_fields : gset string) (w w' : World)
    (r : gmap string (list Q) * gset string) :
  capture_fields fields existing_fields spurious_fields w = Ok r w' →
  fields = [] ∧ r = (existing_fields, spurious_fields) ∧ w' = w.
Proof.
  destruct fields as [|field fields]; simpl.
  - by intros [-> ->]%mret_Ok.
  - by intros (? & ? & ? & _)%bind_Ok.
Qed.

(** The steps of a returning call of [fill_pits] *)
Lemma fill_pits_Ok (fuel : nat) (apply_slope : option Q) (w w' : World) (u : unit) :
  fill_pits C fuel apply_slope w = Ok u w' →
  lf_output_var_names C ∪ fr_output_var_names C = ∅ ∧
  ∃ w1 w2 w3 w4 d sd,
    call_route_flow C (set_original_elev (_elev w) w) = Ok () w1 ∧
    call_map_depressions C (Some (pit_node_ids (_fr w1))) false w1 = Ok () w2 ∧
    field "depression__depth" w2 = Ok d w2 ∧
    iadd_elev d w2 = Ok () w3 ∧
    match apply_slope with
    | Some slope =>
        if truthy apply_slope then stabilise C fuel slope false 0 w3 = Ok () w4
        else w4 = w3
    | None => w4 = w3
    end ∧
    (sd' ← sub (_elev w4) (original_elev w4);
     np.broadcast_to (length (sed_fill_depth w4)) sd') = Some sd ∧
    w' = set_sed_fill_depth sd w4.
Proof.
  unfold fill_pits. intros H.
  apply bind_Ok in H as (e & w0 & [-> ->]%gets_Ok & H).
  apply bind_Ok in H as ([] & w0 & ->%modify_Ok & H).
  apply bind_Ok in H as ([existing spurious] & w0 & (Hnames & [= -> ->] & ->)%capture_fields_Ok & H).
  apply bind_Ok in H as ([] & w1 & Hroute & H).
  apply bind_Ok in H as (pits & w1' & [-> ->]%gets_Ok & H).
  apply bind_Ok in H as ([] & w2 & Hmap & H).
  apply bind_Ok in H as (d & w2' & Hd & H).
  pose proof Hd as [_ ->]%field_Ok.
  apply bind_Ok in H as ([] & w3 & Hadd & H).
  apply bind_Ok in H as ([] & w4 & Hslope & H).
  rewrite elements_empty, map_to_list_empty in H. cbn [for_each] in H.
  apply bind_Ok in H as ([] & w5 & ->%pass_Ok & H).
  apply bind_Ok in H as ([] & w6 & ->%pass_Ok & H).
  apply bind_Ok in H as (e & w7 & [-> ->]%gets_Ok & H).
  apply bind_Ok in H as (o & w8 & [-> ->]%gets_Ok & H).
  apply bind_Ok in H as (sd' & w9 & [Hsub ->]%or_raise_Ok & H).
  apply bind_Ok in H as (sf & w10 & [-> ->]%gets_Ok & H).
  apply bind_Ok in H as (sd & w11 & [Hsd ->]%or_raise_Ok & H).
  apply modify_Ok in H as ->.
  split.
  { apply elements_empty_inv in Hnames. by apply leibniz_equiv in Hnames. }
  exists w1, w2, w3, w4, d, sd. repeat split; try done.
  - destruct apply_slope as [slope|]; [destruct (truthy (Some slope))|];
      [done|by apply pass_Ok in Hslope..].
  - rewrite Hsub. done.
Qed.

End Loops.

(** ** [fill_pits] *)

Lemma sub_raised (o e d : list Q) :
  Forall2 Qle o e → sub e o = Some d →
  d = zip_with Qminus e o ∧ Forall (Qle 0) d.
Proof.
  intros Hoe. unfold sub.
  rewrite bool_decide_eq_true_2 by (symmetry; by eapply Forall2_length).
  intros [= <-]. split; [done|].
  apply Forall_lookup. intros i x (a & b & -> & Ha & Hb)%lookup_zip_with_Some.
  pose proof (Forall2_lookup_lr _ _ _ _ _ _ Hoe Hb Ha). lra.
Qed.

Section FillPits.

Variable C : Collaborators.

(** From the entry of [fill_pits] to the state its last lines work on:
    the snapshot holds the elevations of the entry, and the elevations have
    only gone up. *)
Lemma fill_pits_rises (fuel : nat) (apply_slope : option Q) (w w1 w2 w3 w4 : World)
    (d : list Q) :
  depths_nonneg C → distances_nonneg (_grid C) →
  (∀ s, apply_slope = Some s → (0 < s)%Q) →
  call_route_flow C (set_original_elev (_elev w) w) = Ok () w1 →
  call_map_depressions C (Some (pit_node_ids (_fr w1))) false w1 = Ok () w2 →
  field "depression__depth" w2 = Ok d w2 →
  iadd_elev d w2 = Ok () w3 →
  match apply_slope with
  | Some slope =>
      if truthy apply_slope then stabilise C fuel slope false 0 w3 = Ok () w4
      else w4 = w3
  | None => w4 = w3
  end →
  original_elev w4 = _elev w ∧ sed_fill_depth w4 = sed_fill_depth w ∧
  Forall2 Qle (_elev w) (_elev w4).
Proof.
  intros Hdepth Hdist Hpos Hroute Hmap Hd Hadd Hslope.
  assert (H01 : rises (set_original_elev (_elev w) w) w1).
  { apply call_route_flow_Ok in Hroute as (He & Ho & Hs & _).
    repeat split; [done..|]. rewrite He.
    apply Forall_Forall2_diag, Forall_forall. intros. apply Qle_refl. }
  pose proof (fill_step_rises C _ _ _ _ _ _ _ _ Hdepth Hmap Hd Hadd) as H13.
  assert (H34 : rises w3 w4).
  { destruct apply_slope as [slope|]; [|subst; apply rises_refl].
    destruct (truthy (Some slope)); [|subst; apply rises_refl].
    apply stabilise_Ok in Hslope as (fuel' & _ & Hrounds & _).
    eapply slope_rounds_rises; [done..| |exact Hrounds].
    apply Qlt_le_weak. by apply Hpos. }
  exact (rises_trans _ _ _ H01 (rises_trans _ _ _ H13 H34)).
Qed.

(** The snapshot a returning call leaves is the elevations it started from. *)
Lemma fill_pits_snapshot (fuel : nat) (apply_slope : option Q) (w w' : World) :
  fill_pits C fuel apply_slope w = Ok () w' → original_elev w' = _elev w.
Proof.
  intros (_ & w1 & w2 & w3 & w4 & d & sd & Hroute & Hmap & Hd & Hadd & Hslope & _ & ->)%fill_pits_Ok.
  apply call_route_flow_Ok in Hroute as (_ & Ho1 & _).
  apply call_map_depressions_Ok in Hmap as (_ & Ho2 & _).
  apply iadd_elev_Ok in Hadd as (e' & _ & ->).
  assert (original_elev w4 = original_elev w2) as Ho4.
  { destruct apply_slope as [slope|]; [|by subst].
    destruct (truthy (Some slope)); [|by subst].
    apply stabilise_Ok in Hslope as (fuel' & _ & Hrounds & _).
    by apply slope_rounds_frame in Hrounds as [? _]. }
  cbn [set_sed_fill_depth original_elev]. by rewrite Ho4, Ho2, Ho1.
Qed.

(** C5. After a successful call of [fill_pits], with or without a slope,
    the array [sediment_fill__depth] is elementwise non-negative (and, when
    it has an entry per node, it is the final elevation minus the elevation
    the operation started from, node by node), provided that the depression
    mapper supplies non-negative depths, the grid non-negative distances,
    and that the slope, if one is given, is positive. *)
Theorem sediment_fill_depth_nonneg (fuel : nat) (apply_slope : option Q) (w w' : World) :
  depths_nonneg C → distances_nonneg (_grid C) →
  (∀ s, apply_slope = Some s → (0 < s)%Q) →
  fill_pits C fuel apply_slope w = Ok () w' →
  Forall (Qle 0) (sed_fill_depth w') ∧
  (length (sed_fill_depth w) = length (_elev w) →
   sed_fill_depth w' = zip_with Qminus (_elev w') (_elev w)).
Proof.
  intros Hdepth Hdist Hpos
    (_ & w1 & w2 & w3 & w4 & d & sd & Hroute & Hmap & Hd & Hadd & Hslope & Hsd & ->)%fill_pits_Ok.
  destruct (fill_pits_rises fuel apply_slope w w1 w2 w3 w4 d) as (Ho & Hs & He); try done.
  cbn [set_sed_fill_depth sed_fill_depth _elev].
  destruct (sub (_elev w4) (original_elev w4)) as [sd'|] eqn:Hsub; [|done].
  cbn in Hsd. rewrite Ho in Hsub.
  apply (sub_raised _ _ _ He) in Hsub as [-> Hnonneg].
  split.
  - apply broadcast_to_Some in Hsd as [_ Hin].
    rewrite Forall_forall in Hnonneg |- *. auto.
  - intros Hlen. rewrite Hs, Hlen in Hsd.
    unfold np.broadcast_to in Hsd. rewrite bool_decide_eq_true_2 in Hsd; [congruence|].
    rewrite length_zip_with_l_eq; by apply Forall2_length in He.
Qed.

(** What the final test of [fill_pits] guards.  Whenever [fill_pits]
    completes after a sloped fill,
    the final test has found no change: for every external-margin node [e]
    of the set of the nodes that the last mapping pass leaves with a flood
    status below [BAD_INDEX_VALUE], and every orthogonal neighbour [n] of
    [e], the relation [original[e] >= original[n]] equals the relation
    [original[e] >= final[n]], where [original] is the elevations before
    the fill (which the snapshot holds) and [final] the returned
    elevations. *)
Lemma fill_pits_final_test (fuel : nat) (slope : Q) (w w' : World) :
  truthy (Some slope) = true →
  fill_pits C fuel (Some slope) w = Ok () w' →
  original_elev w' = _elev w ∧
  ∀ e n oe on nn,
    e ∈ get_lake_ext_margin (_grid C) (all_lakes C w') →
    n ∈ neighbor_row (_grid C) e →
    np.index (_elev w) e = Some oe →
    np.index (_elev w) n = Some on →
    np.index (_elev w') n = Some nn →
    ge_bool oe on = ge_bool oe nn.
Proof.
  intros Ht Hfill. pose proof (fill_pits_snapshot _ _ _ _ Hfill) as Hsnap.
  split; [done|]. rewrite <- Hsnap. revert Hfill.
  intros (_ & w1 & w2 & w3 & w4 & d & sd & _ & _ & _ & _ & Hslope & _ & ->)%fill_pits_Ok.
  rewrite Ht in Hslope.
  apply stabilise_Ok in Hslope as (fuel' & _ & _ & Htest).
  apply drainage_directions_change_Ok in Htest as [_ Hflips].
  intros e n oe on nn He Hn Hoe Hon Hnn.
  destruct (bool_decide (ge_bool oe on = ge_bool oe nn)) eqn:Heq;
    [by apply bool_decide_eq_true in Heq|].
  apply bool_decide_eq_false in Heq.
  assert (false = true); [|done].
  apply Hflips. exists e, n, oe, on, nn. done.
Qed.

End FillPits.

(** ** The zero slope *)

(** C10. Calling [fill_pits] with a slope equal to zero is calling it with
    no slope: the two calls have the same outcome on every state (the same
    returned state, elevations and [sediment_fill__depth] included, or the
    same exception), the slope rounds and the stability checks being skipped
    because the slope is tested for its truth value. *)
Theorem fill_pits_zero_slope (C : Collaborators) (fuel : nat) (slope : Q) (w : World) :
  (slope == 0)%Q →
  fill_pits C fuel (Some slope) w = fill_pits C fuel None w.
Proof.
  intros Hz. unfold fill_pits. cbn [truthy].
  apply Qeq_bool_iff in Hz. rewrite Hz. done.
Qed.

(** ** The unbound names *)

(** C9, where the code departs from it.  As soon as one of the two
    collaborators declares an output field, [fill_pits] raises [NameError]
    on [mg] in the loop that should capture the fields: no field is
    captured, restored or deleted, no collaborator runs (the state is the
    one of the entry, with the snapshot taken), and the call does not
    return. *)
Theorem fill_pits_declared_fields_raise (C : Collaborators) (fuel : nat)
    (apply_slope : option Q) (w : World) :
  lf_output_var_names C ∪ fr_output_var_names C ≠ ∅ →
  fill_pits C fuel apply_slope w
  = Raise (NameError "mg") (set_original_elev (_elev w) w).
Proof.
  intros Hne. unfold fill_pits.
  destruct (elements (lf_output_var_names C ∪ fr_output_var_names C))
    as [|field fields] eqn:Hel.
  - apply elements_empty_inv, leibniz_equiv in Hel. done.
  - done.
Qed.

(** When the final test reports a change, the round ends in [NameError] on
    [original_elev]: with the elevations as the rounds left them, without a
    retry, whatever the retry counter. *)
Lemma stabilise_change_raises (C : Collaborators) (fuel : nat) (apply_slope : Q)
    (sublake : bool) (stability_increment : nat) (w w1 : World) :
  slope_rounds C fuel apply_slope sublake w = Ok () w1 →
  drainage_directions_change C (all_lakes C w1) (original_elev w1) (_elev w1) w1
  = Ok true w1 →
  stabilise C (S fuel) apply_slope sublake stability_increment w
  = Raise (NameError "original_elev") w1.
Proof.
  intros Hrounds Htest. cbn [stabilise]. unfold mbind, M_bind at 1. rewrite Hrounds.
  unfold all_lakes in Htest. unfold mbind, M_bind, gets. rewrite Htest. done.
Qed.

(** ** The fatal error is out of reach *)

Lemma bind_Raise {A B} (m : M A) (f : A → M B) (w w' : World) (e : exn) :
  (m ≫= f) w = Raise e w' ↔
  m w = Raise e w' ∨ ∃ a w1, m w = Ok a w1 ∧ f a w1 = Raise e w'.
Proof.
  unfold mbind, M_bind. split.
  - destruct (m w) as [a w1|e1 w1|] eqn:Hm; [eauto|intros [= -> ->]; by left|done].
  - intros [->|(a & w1 & -> & Hf)]; done.
Qed.

Lemma raises_only_bind {A B} (P : exn → Prop) (m : M A) (f : A → M B) :
  raises_only P m → (∀ a, raises_only P (f a)) → raises_only P (m ≫= f).
Proof.
  intros Hm Hf w e w' [H|(a & w1 & _ & H)]%bind_Raise; [by eapply Hm|by eapply Hf].
Qed.

Lemma raises_only_or_raise {A} (P : exn → Prop) (e : exn) (o : option A) :
  P e → raises_only P (or_raise e o).
Proof. intros He w e' w'. destruct o; [done|]. by intros [= <- _]. Qed.

Lemma raises_only_gets {A} (P : exn → Prop) (f : World → A) : raises_only P (gets f).
Proof. by intros w e w'. Qed.

Lemma raises_only_modify (P : exn → Prop) (f : World → World) : raises_only P (modify f).
Proof. by intros w e w'. Qed.

Lemma raises_only_pass (P : exn → Prop) : raises_only P pass.
Proof. by intros w e w'. Qed.

Lemma raises_only_mret {A} (P : exn → Prop) (a : A) : raises_only P (mret a).
Proof. by intros w e w'. Qed.

Lemma raises_only_out_of_fuel {A} (P : exn → Prop) : raises_only P (@out_of_fuel A).
Proof. by intros w e w'. Qed.

Lemma raises_only_unbound_name {A} (name : string) :
  raises_only not_fatal (@unbound_name A name).
Proof. by intros w e w' [= <- _]. Qed.

Lemma raises_only_for_each {A} (P : exn → Prop) (l : list A) (body : A → M unit) :
  (∀ x, raises_only P (body x)) → raises_only P (for_each l body).
Proof.
  intros Hbody. induction l as [|x l IH]; simpl.
  - apply raises_only_pass.
  - apply raises_only_bind; auto.
Qed.

(** Breaks a goal [raises_only not_fatal m] down along the steps of [m]. *)
Ltac raises_only_steps :=
  repeat first
    [ apply raises_only_bind; [|intros ?]
    | apply raises_only_or_raise; exact I
    | apply raises_only_gets
    | apply raises_only_modify
    | apply raises_only_pass
    | apply raises_only_mret
    | apply raises_only_out_of_fuel
    | apply raises_only_unbound_name
    | apply raises_only_for_each; intros ? ].

Section NotFatal.

Variable C : Collaborators.

Lemma raises_only_assign_elev (vals : list Q) : raises_only not_fatal (assign_elev vals).
Proof. unfold assign_elev. raises_only_steps. Qed.

Lemma raises_only_iadd_elev (vals : list Q) : raises_only not_fatal (iadd_elev vals).
Proof. unfold iadd_elev. raises_only_steps. Qed.

Lemma raises_only_field (name : string) : raises_only not_fatal (field name).
Proof. unfold field. raises_only_steps. Qed.

Lemma raises_only_call_map_depressions (pits : option (list Z)) (reroute_flow : bool) :
  raises_only not_fatal (call_map_depressions C pits reroute_flow).
Proof.
  intros w e w'. unfold call_map_depressions.
  by destruct (map_depressions C pits reroute_flow (_elev w) (at_node w) (_lf w)).
Qed.

Lemma raises_only_call_route_flow : raises_only not_fatal (call_route_flow C).
Proof.
  intros w e w'. unfold call_route_flow.
  by destruct (route_flow C (_elev w) (at_node w) (_fr w)).
Qed.

Lemma raises_only_drainage_directions_change (lake_nodes : list Z) (old new : list Q) :
  raises_only not_fatal (drainage_directions_change C lake_nodes old new).
Proof. unfold drainage_directions_change. raises_only_steps. Qed.

Lemma raises_only_add_slopes (slope : Q) (outlet_node : Z) :
  raises_only not_fatal (add_slopes C slope outlet_node).
Proof. unfold add_slopes. raises_only_steps. Qed.

Lemma raises_only_apply_slope_current_lake (fuel : nat) :
  ∀ (apply_slope : Q) (outlet_node : Z) (sublake : bool),
    raises_only not_fatal (apply_slope_current_lake C fuel apply_slope outlet_node sublake).
Proof.
  induction fuel as [|fuel IH]; intros s o sub; cbn [apply_slope_current_lake].
  - apply raises_only_out_of_fuel.
  - apply raises_only_bind; [apply raises_only_gets|intros start].
    apply raises_only_bind; [apply raises_only_add_slopes|intros [new lake]].
    apply raises_only_bind; [apply raises_only_assign_elev|intros _].
    destruct sub; [apply raises_only_pass|].
    apply raises_only_bind; [apply raises_only_gets|intros elev].
    apply raises_only_bind; [apply raises_only_drainage_directions_change|intros changed].
    destruct changed; [apply raises_only_pass|].
    raises_only_steps. apply IH.
Qed.

Lemma raises_only_slope_rounds (fuel : nat) :
  ∀ (apply_slope : Q) (sublake : bool),
    raises_only not_fatal (slope_rounds C fuel apply_slope sublake).
Proof.
  induction fuel as [|fuel IH]; intros s sub; cbn [slope_rounds].
  - apply raises_only_out_of_fuel.
  - apply raises_only_bind; [apply raises_only_gets|intros outlets].
    apply raises_only_bind.
    { apply raises_only_for_each. intros o. apply raises_only_apply_slope_current_lake. }
    intros _.
    apply raises_only_bind; [apply raises_only_call_map_depressions|intros _].
    apply raises_only_bind; [apply raises_only_gets|intros outlets'].
    case_bool_decide; [apply raises_only_pass|].
    apply raises_only_bind; [apply raises_only_field|intros d].
    apply raises_only_bind; [apply raises_only_iadd_elev|intros _].
    apply IH.
Qed.

Lemma raises_only_stabilise (fuel : nat) (apply_slope : Q) (sublake : bool)
    (stability_increment : nat) :
  raises_only not_fatal (stabilise C fuel apply_slope sublake stability_increment).
Proof.
  destruct fuel as [|fuel]; cbn [stabilise].
  - apply raises_only_out_of_fuel.
  - apply raises_only_bind; [apply raises_only_slope_rounds|intros _].
    apply raises_only_bind; [apply raises_only_gets|intros status].
    apply raises_only_bind; [apply raises_only_gets|intros orig].
    apply raises_only_bind; [apply raises_only_gets|intros elev].
    apply raises_only_bind; [apply raises_only_drainage_directions_change|intros unstable].
    destruct unstable; [|apply raises_only_pass].
    intros w e w' [H|(a & w1 & H & _)]%bind_Raise; [|done].
    by eapply raises_only_unbound_name.
Qed.

Lemma raises_only_capture_fields (fields : list string)
    (existing_fields : gmap string (list Q)) (spurious_fields : gset string) :
  raises_only not_fatal (capture_fields fields existing_fields spurious_fields).
Proof.
  destruct fields as [|field fields]; simpl.
  - apply raises_only_mret.
  - intros w e w' [H|(a & w1 & H & _)]%bind_Raise; [|done].
    by eapply raises_only_unbound_name.
Qed.

(** [fill_pits] never raises the fatal error of its stabilization loop,
    whatever the input. *)
Lemma fill_pits_not_fatal (fuel : nat) (apply_slope : option Q) :
  raises_only not_fatal (fill_pits C fuel apply_slope).
Proof.
  unfold fill_pits.
  apply raises_only_bind; [apply raises_only_gets|intros e].
  apply raises_only_bind; [apply raises_only_modify|intros _].
  apply raises_only_bind; [apply raises_only_capture_fields|intros [existing spurious]].
  apply raises_only_bind; [apply raises_only_call_route_flow|intros _].
  apply raises_only_bind; [apply raises_only_gets|intros pits].
  apply raises_only_bind; [apply raises_only_call_map_depressions|intros _].
  apply raises_only_bind; [apply raises_only_field|intros d].
  apply raises_only_bind; [apply raises_only_iadd_elev|intros _].
  apply raises_only_bind.
  { destruct apply_slope as [slope|]; [|apply raises_only_pass].
    destruct (truthy (Some slope)); [apply raises_only_stabilise|apply raises_only_pass]. }
  intros _. raises_only_steps.
Qed.

End NotFatal.

(** ** The scenarios *)

Section Scenarios.

Import Scenario.

Lemma valley_margin : get_lake_ext_margin (line_grid 5) [2] = [1; 3].
Proof. by vm_compute. Qed.

Lemma line_distances_nonneg (n : nat) : distances_nonneg (line_grid n).
Proof.
  intros p z. cbn [distance_to_point line_grid].
  destruct (np.index (line_x n) z); [apply Qabs_nonneg|apply Qle_refl].
Qed.

Lemma valley_depths_nonneg (final_status : list Z) :
  depths_nonneg (valley_collab final_status).
Proof.
  intros pits r elev f l d. simpl. unfold valley_mapper.
  destruct pits; simpl; rewrite lookup_insert_eq; intros [= <-];
    repeat constructor; by compute.
Qed.

(** C1, where the code departs from it.  On the valley, [fill_pits] with
    slope 1 completes with the elevations [5, 3, 3, 2, 0]: node 3 is on the
    external margin of the lake [{2}] it processed and node 2 is an
    orthogonal neighbour of it; before the fill node 3 is at least as high
    as node 2, in the returned elevations it is not.  On the shelf the same
    happens away from the outlet, between node 1 and node 2.  The test
    that [apply_slope_current_lake] makes of the tilt reports the change,
    and the tilt is kept (on the shelf as on the valley, see C3); the final
    test then has nothing to look at, the last mapping pass leaving every
    node with a flood status below [BAD_INDEX_VALUE], a set without
    margin. *)
Theorem fill_pits_returns_changed_margin :
  (* the valley: at the outlet *)
  fill_pits (valley_collab (replicate 5 0)) 5 (Some 1%Q) valley_world
  = Ok () (sloped_valley_world (replicate 5 0)) ∧
  lake_of filled_valley_world 3 = [2] ∧
  get_lake_ext_margin (line_grid 5) [2] = [1; 3] ∧
  neighbor_row (line_grid 5) 3 = [2; 4] ∧
  drains (_elev valley_world) 3 2 = Some true ∧
  drains (_elev (sloped_valley_world (replicate 5 0))) 3 2 = Some false ∧
  (* the shelf: away from the outlet *)
  (∃ w', fill_pits (valley_collab (replicate 5 0)) 5 (Some 1%Q) shelf_world = Ok () w' ∧
         original_elev w' = shelf ∧ _elev w' = [5; 5 # 2; 3; 2; 0]%Q) ∧
  lake_of filled_shelf_world 3 = [2] ∧
  neighbor_row (line_grid 5) 1 = [0; 2] ∧
  drains shelf 1 2 = Some true ∧
  drains [5; 5 # 2; 3; 2; 0]%Q 1 2 = Some false ∧
  (* the test of the tilt reports the change, and the tilt is kept *)
  drainage_directions_change (valley_collab (replicate 5 0)) [2]
    (_elev filled_shelf_world) [5; 5 # 2; 3; 2; 0]%Q
    (set_elev [5; 5 # 2; 3; 2; 0]%Q filled_shelf_world)
  = Ok true (set_elev [5; 5 # 2; 3; 2; 0]%Q filled_shelf_world) ∧
  apply_slope_current_lake (valley_collab (replicate 5 0)) 1 1 3 false filled_shelf_world
  = Ok () (set_elev [5; 5 # 2; 3; 2; 0]%Q filled_shelf_world) ∧
  (* the final test has no margin to look at *)
  all_lakes (valley_collab (replicate 5 0)) (sloped_valley_world (replicate 5 0))
  = [0; 1; 2; 3; 4] ∧
  get_lake_ext_margin (line_grid 5) [0; 1; 2; 3; 4] = [].
Proof.
  split; [by vm_compute|]. split; [by vm_compute|]. split; [by vm_compute|].
  split; [by vm_compute|]. split; [by vm_compute|]. split; [by vm_compute|].
  split.
  { eexists. split; [vm_compute; reflexivity|]. split; reflexivity. }
  repeat split; by vm_compute.
Qed.

(** The final test on the valley, where the last pass marks node 0 alone *)
Lemma fill_pits_final_test_witness :
  truthy (Some 1%Q) = true ∧
  fill_pits (valley_collab [0; bad; bad; bad; bad]) 5 (Some 1%Q) valley_world
  = Ok () (sloped_valley_world [0; bad; bad; bad; bad]) ∧
  original_elev (sloped_valley_world [0; bad; bad; bad; bad]) = _elev valley_world ∧
  ∀ e n oe on nn,
    e ∈ get_lake_ext_margin (line_grid 5)
          (all_lakes (valley_collab [0; bad; bad; bad; bad])
                     (sloped_valley_world [0; bad; bad; bad; bad])) →
    n ∈ neighbor_row (line_grid 5) e →
    np.index (_elev valley_world) e = Some oe →
    np.index (_elev valley_world) n = Some on →
    np.index (_elev (sloped_valley_world [0; bad; bad; bad; bad])) n = Some nn →
    ge_bool oe on = ge_bool oe nn.
Proof.
  split; [reflexivity|]. split; [vm_compute; reflexivity|].
  apply (fill_pits_final_test (valley_collab [0; bad; bad; bad; bad]) 5 1%Q valley_world);
    [reflexivity|vm_compute; reflexivity].
Defined.

(** C5, on the valley *)
Lemma sediment_fill_depth_nonneg_witness :
  Forall (Qle 0) (sed_fill_depth (sloped_valley_world (replicate 5 0))) ∧
  (length (sed_fill_depth valley_world) = length (_elev valley_world) →
   sed_fill_depth (sloped_valley_world (replicate 5 0))
   = zip_with Qminus (_elev (sloped_valley_world (replicate 5 0))) (_elev valley_world)).
Proof.
  apply (sediment_fill_depth_nonneg (valley_collab (replicate 5 0)) 5 (Some 1%Q) valley_world).
  - apply valley_depths_nonneg.
  - apply line_distances_nonneg.
  - intros s [= <-]. reflexivity.
  - vm_compute. reflexivity.
Defined.

(** C7, on the filled valley: the lake [{2}] is tilted towards node 3. *)
Lemma add_slopes_spec_witness :
  ∃ new_elevs lake_nodes,
    add_slopes (valley_collab []) 1 3 filled_valley_world
    = Ok (new_elevs, lake_nodes) filled_valley_world ∧
    length new_elevs = length (_elev filled_valley_world) ∧
    ∀ (k : nat) (e : Q), _elev filled_valley_world !! k = Some e →
      new_elevs !! k =
        Some (if bool_decide (depression_outlet (_lf filled_valley_world) !! k = Some 3)
              then (e + 1 * distance_to_point (line_grid 5) (3, 0)%Q (Z.of_nat k))%Q
              else e).
Proof.
  apply (add_slopes_spec (valley_collab []) 1 3 filled_valley_world 3 0);
    [reflexivity|reflexivity|simpl; lia].
Defined.

(** C10, on the valley *)
Lemma fill_pits_zero_slope_witness :
  fill_pits (valley_collab []) 5 (Some 0%Q) valley_world
  = fill_pits (valley_collab []) 5 None valley_world.
Proof.
  apply (fill_pits_zero_slope (valley_collab []) 5 0%Q valley_world). reflexivity.
Defined.

(** C2, where the code departs from it.  Node 1 is on the margin of the
    lake [{2}] and node 0 is a neighbour of it.  Under the old elevations
    node 1 is above node 0, under the new ones it is below: the relation
    differs between the two states, and [drainage_directions_change]
    returns false, for it compares the old elevation of node 1 with the new
    elevation of node 0.  The final test of [fill_pits] misses a change the
    same way: on the valley, with a last mapping pass that leaves node 1
    alone as flooded, node 2 is on the margin of the set that is tested;
    before the fill it is below node 1, in the returned elevations it is
    level with it; the test compares its elevation of before the fill on
    both sides, reports no change, and [fill_pits] returns. *)
Theorem drainage_directions_change_misses_margin_change :
  (* the method on its own *)
  get_lake_ext_margin (line_grid 5) [2] = [1; 3] ∧
  neighbor_row (line_grid 5) 1 = [0; 2] ∧
  drains [0; 1; 5; 9; 0]%Q 1 0 = Some true ∧
  drains [0; -1; 5; 9; 0]%Q 1 0 = Some false ∧
  relation_flips_between_states (line_grid 5) [2] [0; 1; 5; 9; 0]%Q [0; -1; 5; 9; 0]%Q ∧
  drainage_directions_change (valley_collab []) [2]
    [0; 1; 5; 9; 0]%Q [0; -1; 5; 9; 0]%Q valley_world
  = Ok false valley_world ∧
  (* the final test of fill_pits *)
  fill_pits (valley_collab [bad; 1; bad; bad; bad]) 5 (Some 1%Q) valley_world
  = Ok () (sloped_valley_world [bad; 1; bad; bad; bad]) ∧
  all_lakes (valley_collab [bad; 1; bad; bad; bad])
    (sloped_valley_world [bad; 1; bad; bad; bad]) = [1] ∧
  get_lake_ext_margin (line_grid 5) [1] = [0; 2] ∧
  neighbor_row (line_grid 5) 2 = [1; 3] ∧
  drains valley 2 1 = Some false ∧
  drains (_elev (sloped_valley_world [bad; 1; bad; bad; bad])) 2 1 = Some true ∧
  relation_flips_between_states (line_grid 5) [1] valley
    (_elev (sloped_valley_world [bad; 1; bad; bad; bad])) ∧
  drainage_directions_change (valley_collab [bad; 1; bad; bad; bad]) [1] valley
    (_elev (sloped_valley_world [bad; 1; bad; bad; bad]))
    (tilted_valley_world [bad; 1; bad; bad; bad])
  = Ok false (tilted_valley_world [bad; 1; bad; bad; bad]).
Proof.
  assert (Hrow1 : neighbor_row (line_grid 5) 1 = [0; 2]) by by vm_compute.
  assert (Hrow2 : neighbor_row (line_grid 5) 2 = [1; 3]) by by vm_compute.
  assert (Hm1 : get_lake_ext_margin (line_grid 5) [1] = [0; 2]) by by vm_compute.
  split; [by vm_compute|]. split; [done|]. split; [by vm_compute|].
  split; [by vm_compute|]. split.
  { exists 1, 0, true, false. rewrite valley_margin, Hrow1.
    split; [rewrite !elem_of_cons; tauto|]. split; [rewrite !elem_of_cons; tauto|].
    split; [by vm_compute|]. split; [by vm_compute|done]. }
  split; [by vm_compute|]. split; [by vm_compute|]. split; [by vm_compute|].
  split; [done|]. split; [done|]. split; [by vm_compute|]. split; [by vm_compute|].
  split; [|by vm_compute].
  exists 2, 1, false, true. rewrite Hm1, Hrow2.
  split; [rewrite !elem_of_cons; tauto|]. split; [rewrite !elem_of_cons; tauto|].
  split; [by vm_compute|]. split; [by vm_compute|done].
Qed.

(** On the valley, the tilt of the lake [{2}] changes the relation between
    its outlet, node 3, and node 2. *)
Lemma drainage_directions_change_spec_witness :
  ∃ b, drainage_directions_change (valley_collab []) [2]
         [5; 3; 2; 2; 0]%Q [5; 3; 3; 2; 0]%Q valley_world = Ok b valley_world ∧
       (b = true ↔ relation_flips (line_grid 5) [2] [5; 3; 2; 2; 0]%Q [5; 3; 3; 2; 0]%Q).
Proof.
  apply (drainage_directions_change_spec (valley_collab [])
           [5; 3; 2; 2; 0]%Q [5; 3; 3; 2; 0]%Q [2] valley_world).
  - intros e He. change (_grid (valley_collab [])) with (line_grid 5) in He.
    rewrite valley_margin in He.
    apply elem_of_cons in He as [->|He]; [by eexists|].
    apply elem_of_cons in He as [->|He]; [by eexists|].
    by apply elem_of_nil in He.
  - intros e n He Hn. change (_grid (valley_collab [])) with (line_grid 5) in He, Hn.
    rewrite valley_margin in He.
    apply elem_of_cons in He as [->|He].
    { assert (neighbor_row (line_grid 5) 1 = [0; 2]) as Hrow by (vm_compute; reflexivity).
      rewrite Hrow in Hn.
      apply elem_of_cons in Hn as [->|Hn]; [split; by eexists|].
      apply elem_of_cons in Hn as [->|Hn]; [split; by eexists|].
      by apply elem_of_nil in Hn. }
    apply elem_of_cons in He as [->|He]; [|by apply elem_of_nil in He].
    assert (neighbor_row (line_grid 5) 3 = [2; 4]) as Hrow by (vm_compute; reflexivity).
    rewrite Hrow in Hn.
    apply elem_of_cons in Hn as [->|Hn]; [split; by eexists|].
    apply elem_of_cons in Hn as [->|Hn]; [split; by eexists|].
    by apply elem_of_nil in Hn.
Defined.

(** On the deep valley no tilt of the lake [{2}] by a slope between 0 and 1
    changes a relation at the margin, and no number of iterations returns. *)
Lemma deep_valley_never_returns (fuel : nat) :
  ∀ s : Q, (0 <= s)%Q → (s <= 1)%Q →
    apply_slope_current_lake (valley_collab []) fuel s 3 false deep_valley_world
    = OutOfFuel.
Proof.
  induction fuel as [|fuel IH]; intros s Hs0 Hs1; [done|].
  set (C := valley_collab []). set (w := deep_valley_world).
  destruct (add_slopes_returns C s 3 w 3 0) as [new Hnew];
    [reflexivity|reflexivity|simpl; lia|].
  assert (Hlake : lake_of w 3 = [2]) by (vm_compute; reflexivity).
  rewrite Hlake in Hnew.
  pose proof Hnew as (_ & _ & Hlen & x & y & Hx & Hy & Hk)%add_slopes_Ok.
  rewrite Hlake in Hk.
  assert (x = 3%Q) as -> by (vm_compute in Hx; congruence).
  assert (y = 0%Q) as -> by (vm_compute in Hy; congruence).
  assert (Hnew_other : ∀ k : nat, k ≠ 2%nat → new !! k = _elev w !! k).
  { intros k Hne. rewrite Hk. rewrite decide_False; [done|].
    intros [= ?]%list_elem_of_singleton. lia. }
  assert (Hnew_2 : ∃ v, new !! 2%nat = Some v ∧ (v <= 3)%Q) .
  { exists (tilted C w s (3, 0)%Q 2). split.
    - rewrite Hk. rewrite decide_True; [done|]. apply list_elem_of_singleton. done.
    - unfold tilted. change (default 0%Q (_elev w !! Z.to_nat 2)) with 1%Q.
      change (distance_to_point (_grid C) (3, 0)%Q 2) with (Qabs (inject_Z 2 - 3)).
      assert (Qabs (inject_Z 2 - 3) == 1)%Q as -> by reflexivity. lra. }
  destruct Hnew_2 as (v & Hv & Hv3).
  pose proof (index_nonneg new 0 : np.index new 0 = new !! 0%nat) as Hi0.
  pose proof (index_nonneg new 2 : np.index new 2 = new !! 2%nat) as Hi2.
  pose proof (index_nonneg new 4 : np.index new 4 = new !! 4%nat) as Hi4.
  destruct (drainage_directions_change_returns C (_elev w) new [2] (set_elev new w))
    as [b Hb].
  { intros e He. change (_grid C) with (line_grid 5) in He. rewrite valley_margin in He.
    apply elem_of_cons in He as [->|He]; [by eexists|].
    apply list_elem_of_singleton in He as ->. by eexists. }
  { intros e n He Hn. change (_grid C) with (line_grid 5) in He, Hn.
    rewrite valley_margin in He.
    assert (Hn' : n = 0 ∨ n = 2 ∨ n = 4).
    { apply elem_of_cons in He as [->|He].
      - assert (neighbor_row (line_grid 5) 1 = [0; 2]) as Hrow by (vm_compute; reflexivity).
        rewrite Hrow, !elem_of_cons, elem_of_nil in Hn. tauto.
      - apply list_elem_of_singleton in He as ->.
        assert (neighbor_row (line_grid 5) 3 = [2; 4]) as Hrow by (vm_compute; reflexivity).
        rewrite Hrow, !elem_of_cons, elem_of_nil in Hn. tauto. }
    destruct Hn' as [-> | [-> | ->]]; (split; [by eexists|]).
    - rewrite Hi0, Hnew_other by lia. by eexists.
    - rewrite Hi2. by eexists.
    - rewrite Hi4, Hnew_other by lia. by eexists. }
  assert (b = false) as ->.
  { destruct b; [|done]. exfalso.
    apply drainage_directions_change_Ok in Hb as [_ [Hflips _]].
    destruct (Hflips eq_refl) as (e & n & oe & on & nn & He & Hn & Hoe & Hon & Hnn & Hd).
    change (_grid C) with (line_grid 5) in He, Hn. rewrite valley_margin in He.
    apply elem_of_cons in He as [->|He].
    - assert (neighbor_row (line_grid 5) 1 = [0; 2]) as Hrow by (vm_compute; reflexivity).
      rewrite Hrow in Hn. vm_compute in Hoe. injection Hoe as <-.
      apply elem_of_cons in Hn as [->|Hn].
      + rewrite Hi0, Hnew_other in Hnn by lia.
        vm_compute in Hnn, Hon. congruence.
      + apply list_elem_of_singleton in Hn as ->.
        rewrite Hi2, Hv in Hnn. injection Hnn as <-.
        vm_compute in Hon. injection Hon as <-.
        apply Hd. transitivity true; [reflexivity|symmetry].
        apply Qle_bool_iff. lra.
    - apply list_elem_of_singleton in He as ->.
      assert (neighbor_row (line_grid 5) 3 = [2; 4]) as Hrow by (vm_compute; reflexivity).
      rewrite Hrow in Hn. vm_compute in Hoe. injection Hoe as <-.
      apply elem_of_cons in Hn as [->|Hn].
      + rewrite Hi2, Hv in Hnn. injection Hnn as <-.
        vm_compute in Hon. injection Hon as <-.
        apply Hd. transitivity true; [reflexivity|symmetry].
        apply Qle_bool_iff. lra.
      + apply list_elem_of_singleton in Hn as ->.
        rewrite Hi4, Hnew_other in Hnn by lia.
        vm_compute in Hnn, Hon. congruence. }
  rewrite (apply_slope_current_lake_step C fuel s 3 false false w new [2] Hnew (λ _, Hb)).
  cbn [orb]. apply IH; lra.
Qed.

(** C3, where the code departs from it.  On the filled valley the lake
    [{2}] is not subsidiary, and tilting it with slope 1 changes the relation
    between node 3 and node 2: the test of the drainage directions reports
    a change.  [apply_slope_current_lake] returns at once, the tilted
    elevations in place.  On the deep valley the same tilt, and the tilts
    with the slopes 0.1 and 0.01, change no relation: the test reports none,
    and each time the elevations are put back and the slope is divided by
    ten; three iterations do not return. *)
Theorem apply_slope_current_lake_accepts_on_change :
  add_slopes (valley_collab []) 1 3 filled_valley_world
  = Ok ([5; 3; 3; 2; 0]%Q, [2]) filled_valley_world ∧
  drainage_directions_change (valley_collab []) [2]
    (_elev filled_valley_world) [5; 3; 3; 2; 0]%Q
    (set_elev [5; 3; 3; 2; 0]%Q filled_valley_world)
  = Ok true (set_elev [5; 3; 3; 2; 0]%Q filled_valley_world) ∧
  apply_slope_current_lake (valley_collab []) 1 1 3 false filled_valley_world
  = Ok () (set_elev [5; 3; 3; 2; 0]%Q filled_valley_world) ∧
  add_slopes (valley_collab []) 1 3 deep_valley_world
  = Ok ([5; 9; 2; 3; 0]%Q, [2]) deep_valley_world ∧
  drainage_directions_change (valley_collab []) [2]
    (_elev deep_valley_world) [5; 9; 2; 3; 0]%Q
    (set_elev [5; 9; 2; 3; 0]%Q deep_valley_world)
  = Ok false (set_elev [5; 9; 2; 3; 0]%Q deep_valley_world) ∧
  apply_slope_current_lake (valley_collab []) 1 1 3 false deep_valley_world
  = apply_slope_current_lake (valley_collab []) 0 (1 * (1 # 10)) 3 false deep_valley_world ∧
  ∀ fuel, apply_slope_current_lake (valley_collab []) fuel 1 3 false deep_valley_world
          = OutOfFuel.
Proof.
  repeat split; try by vm_compute.
  intros fuel. apply deep_valley_never_returns; lra.
Qed.

(** C4, where the code departs from it.  On the valley, with a mapper that
    leaves node 2 marked as flooded, the final test reports a change after
    the first series of rounds.  [fill_pits] then raises [NameError] on
    [original_elev]: the elevations are the tilted ones, not the snapshot,
    and there is no retry.  The loop of lines 155-183 does so from the
    filled valley whatever fields the collaborators declare. *)
Theorem fill_pits_unstable_raises_NameError :
  slope_rounds (valley_collab [bad; bad; 3; bad; bad]) 4 1 false filled_valley_world
  = Ok () (tilted_valley_world [bad; bad; 3; bad; bad]) ∧
  stabilise (declaring_collab [bad; bad; 3; bad; bad]) 5 1 false 0 filled_valley_world
  = Raise (NameError "original_elev") (tilted_valley_world [bad; bad; 3; bad; bad]) ∧
  drainage_directions_change (valley_collab [bad; bad; 3; bad; bad]) [2]
    valley [5; 3; 3; 2; 0]%Q (tilted_valley_world [bad; bad; 3; bad; bad])
  = Ok true (tilted_valley_world [bad; bad; 3; bad; bad]) ∧
  fill_pits (valley_collab [bad; bad; 3; bad; bad]) 5 (Some 1%Q) valley_world
  = Raise (NameError "original_elev") (tilted_valley_world [bad; bad; 3; bad; bad]) ∧
  _elev (tilted_valley_world [bad; bad; 3; bad; bad]) = [5; 3; 3; 2; 0]%Q ∧
  original_elev (tilted_valley_world [bad; bad; 3; bad; bad]) = [5; 3; 1; 2; 0]%Q.
Proof. repeat split; by vm_compute. Qed.

(** C6, where the code departs from it.  On the ridge, the mapping pass
    that follows the tilt of the lake [{2}] reports one lake outlet, node 0,
    for the depression at node 1.  The ids of the outlets sum to zero, and
    the loop exits: no further round runs, node 1 is left as it was, and
    [fill_pits] returns with that outlet still reported. *)
Theorem slope_rounds_exit_on_outlet_zero :
  slope_rounds ridge_collab 4 1 false filled_ridge_world
  = Ok () (set_sed_fill_depth (replicate 5 0%Q) sloped_ridge_world) ∧
  fill_pits ridge_collab 5 (Some 1%Q) ridge_world = Ok () sloped_ridge_world ∧
  lake_outlets (_lf sloped_ridge_world) = [0] ∧
  lake_of sloped_ridge_world 0 = [1] ∧
  _elev sloped_ridge_world !! 1%nat = _elev filled_ridge_world !! 1%nat.
Proof. repeat split; by vm_compute. Qed.

(** C9, on the valley with collaborators that declare their fields *)
Lemma fill_pits_declared_fields_raise_witness :
  fill_pits (declaring_collab []) 5 (Some 1%Q) valley_world
  = Raise (NameError "mg") (set_original_elev (_elev valley_world) valley_world).
Proof.
  apply (fill_pits_declared_fields_raise (declaring_collab []) 5 (Some 1%Q) valley_world).
  intros H. apply (f_equal elements) in H. vm_compute in H. discriminate H.
Defined.

End Scenarios.

(** * Further properties of the component *)

(** ** The margins of a lake *)

Lemma elem_of_intersect1d (a b : list Z) (x : Z) :
  x ∈ np.intersect1d a b ↔ x ∈ a ∧ x ∈ b.
Proof.
  unfold np.intersect1d. rewrite list_elem_of_filter, elem_of_unique. tauto.
Qed.

(** X1. [get_lake_int_margin] returns exactly the lake nodes that are an
    orthogonal or a diagonal neighbour of some node of the given external
    edge; the array is sorted and without repetition. *)
Theorem get_lake_int_margin_spec (g : Grid) (lake_nodes lake_ext_edge : list Z) :
  (∀ x, x ∈ get_lake_int_margin g lake_nodes lake_ext_edge ↔
        x ∈ lake_nodes ∧ (∃ e, e ∈ lake_ext_edge ∧ adjacent g e x))
  ∧ NoDup (get_lake_int_margin g lake_nodes lake_ext_edge)
  ∧ Sorted Z.le (get_lake_int_margin g lake_nodes lake_ext_edge).
Proof.
  split; [|split].
  - intros x. unfold get_lake_int_margin, get_neighbor_list, get_diagonal_list, adjacent.
    rewrite elem_of_intersect1d, elem_of_union1d, !elem_of_concat_rows. split.
    + intros [[(e & ? & ?)|(e & ? & ?)] ?]; eauto 6.
    + intros [? (e & ? & [?|?])]; eauto 6.
  - unfold get_lake_int_margin, np.intersect1d. apply NoDup_filter, NoDup_unique.
  - unfold get_lake_int_margin, np.intersect1d.
    apply StronglySorted_Sorted, StronglySorted_filter_le.
    apply Sorted_StronglySorted; [|apply Sorted_unique].
    intros x y z. apply Z.le_trans.
Qed.

Lemma elem_of_get_lake_ext_margin (g : Grid) (lake_nodes : list Z) (x : Z) :
  x ∈ get_lake_ext_margin g lake_nodes ↔
  (∃ l, l ∈ lake_nodes ∧ adjacent g l x) ∧ x ∉ lake_nodes.
Proof.
  unfold get_lake_ext_margin, get_neighbor_list, get_diagonal_list, adjacent.
  rewrite elem_of_setdiff1d, elem_of_union1d, !elem_of_concat_rows. split.
  - intros [[(l & ? & ?)|(l & ? & ?)] ?]; eauto 6.
  - intros [(l & ? & [?|?]) ?]; eauto 6.
Qed.

Lemma get_lake_ext_margin_sorted (g : Grid) (lake_nodes : list Z) :
  NoDup (get_lake_ext_margin g lake_nodes) ∧ Sorted Z.le (get_lake_ext_margin g lake_nodes).
Proof.
  unfold get_lake_ext_margin, np.setdiff1d. split.
  - apply NoDup_filter, NoDup_unique.
  - apply StronglySorted_Sorted, StronglySorted_filter_le.
    apply Sorted_StronglySorted; [|apply Sorted_unique].
    intros x y z. apply Z.le_trans.
Qed.

(** X2. Where adjacency is symmetric at the lake nodes, the internal margin
    computed from the external margin of the lake is the set of the lake
    nodes that have a neighbour, orthogonal or diagonal, outside the lake. *)
Theorem int_margin_of_ext_margin (g : Grid) (lake_nodes : list Z) :
  (∀ x y, x ∈ lake_nodes → adjacent g x y ↔ adjacent g y x) →
  ∀ x, x ∈ get_lake_int_margin g lake_nodes (get_lake_ext_margin g lake_nodes) ↔
       x ∈ lake_nodes ∧ (∃ y, (y ∉ lake_nodes) ∧ adjacent g x y).
Proof.
  intros Hsym x.
  assert (Hint : x ∈ get_lake_int_margin g lake_nodes (get_lake_ext_margin g lake_nodes) ↔
                 x ∈ lake_nodes ∧
                 (∃ e, e ∈ get_lake_ext_margin g lake_nodes ∧ adjacent g e x)).
  { unfold get_lake_int_margin, get_neighbor_list, get_diagonal_list, adjacent.
    rewrite elem_of_intersect1d, elem_of_union1d, !elem_of_concat_rows. split.
    - intros [[(e & ? & ?)|(e & ? & ?)] ?]; eauto 6.
    - intros [? (e & ? & [?|?])]; eauto 6. }
  rewrite Hint. split.
  - intros [Hx (e & He & Hadj)]. split; [done|].
    apply elem_of_get_lake_ext_margin in He as [_ He].
    exists e. split; [done|]. by apply Hsym.
  - intros [Hx (y & Hy & Hadj)]. split; [done|]. exists y. split.
    + apply elem_of_get_lake_ext_margin. split; [|done]. exists x. done.
    + by apply (Hsym x y Hx).
Qed.

(** X3. The external margin depends on the set of the lake nodes only: two
    arrays with the same members, in whatever order and however repeated,
    have the same margin array. *)
Theorem get_lake_ext_margin_same_members (g : Grid) (lake_nodes lake_nodes' : list Z) :
  (∀ x, x ∈ lake_nodes ↔ x ∈ lake_nodes') →
  get_lake_ext_margin g lake_nodes = get_lake_ext_margin g lake_nodes'.
Proof.
  intros Hsame.
  destruct (get_lake_ext_margin_sorted g lake_nodes) as [Hnd1 Hs1].
  destruct (get_lake_ext_margin_sorted g lake_nodes') as [Hnd2 Hs2].
  apply (stdpp.sorting.Sorted_unique Z.le); [done..|].
  apply NoDup_Permutation; [done..|].
  intros x. rewrite !elem_of_get_lake_ext_margin. split.
  - intros [(l & Hl & Hadj) Hx]. split; [exists l; split; [by apply Hsame|done]|].
    by rewrite <- Hsame.
  - intros [(l & Hl & Hadj) Hx]. split; [exists l; split; [by apply Hsame|done]|].
    by rewrite Hsame.
Qed.

(** ** The errors and the edge cases of [drainage_directions_change] *)

Section DrainageDirectionsEdges.

Variable C : Collaborators.

Lemma take_None {A} (a : list A) (idx : list Z) :
  np.take a idx = None ↔ ∃ z, z ∈ idx ∧ np.index a z = None.
Proof. unfold np.take. by rewrite mapM_None, Exists_exists. Qed.

Lemma take2_None {A} (a : list A) (edge : list Z) :
  np.take2 a (get_neighbor_list (_grid C) edge) = None ↔
  ∃ e n, e ∈ edge ∧ n ∈ neighbor_row (_grid C) e ∧ np.index a n = None.
Proof.
  unfold np.take2, get_neighbor_list. rewrite mapM_None, Exists_exists. split.
  - intros (row & (e & -> & He)%list_elem_of_fmap & (n & Hn & Hnone)%take_None). eauto.
  - intros (e & n & He & Hn & Hnone). exists (neighbor_row (_grid C) e). split.
    + apply list_elem_of_fmap. eauto.
    + apply take_None. eauto.
Qed.

(** X4. [drainage_directions_change] raises [IndexError] exactly when some
    node of the external margin, or some orthogonal neighbour of one, has no
    entry in the arrays it is looked up in (a sentinel beyond the arrays in
    a neighbour list, say); it raises nothing else, and a raising call
    leaves the state as it was. *)
Theorem drainage_directions_change_IndexError (lake_nodes : list Z)
    (old_elevs new_elevs : list Q) (w : World) :
  (drainage_directions_change C lake_nodes old_elevs new_elevs w = Raise IndexError w ↔
   ∃ e, e ∈ get_lake_ext_margin (_grid C) lake_nodes ∧
        (np.index old_elevs e = None ∨
         ∃ n, n ∈ neighbor_row (_grid C) e ∧
              (np.index old_elevs n = None ∨ np.index new_elevs n = None)))
  ∧ (∀ e w', drainage_directions_change C lake_nodes old_elevs new_elevs w = Raise e w' →
             e = IndexError ∧ w' = w).
Proof.
  unfold drainage_directions_change.
  set (edge := get_lake_ext_margin (_grid C) lake_nodes).
  unfold mbind, M_bind.
  destruct (np.take2 old_elevs (get_neighbor_list (_grid C) edge)) as [orows|] eqn:Ho.
  2:{ apply take2_None in Ho as (e & n & He & Hn & Hnone). split.
      - split; [|done]. intros _. exists e. eauto 6.
      - by intros e' w' [= <- <-]. }
  cbn [or_raise mret M_ret].
  destruct (np.take2 new_elevs (get_neighbor_list (_grid C) edge)) as [nrows|] eqn:Hn.
  2:{ apply take2_None in Hn as (e & n & He & Hn & Hnone). split.
      - split; [|done]. intros _. exists e. eauto 6.
      - by intros e' w' [= <- <-]. }
  cbn [or_raise mret M_ret].
  destruct (np.take old_elevs edge) as [ee|] eqn:He.
  2:{ apply take_None in He as (e & He & Hnone). split.
      - split; [|done]. intros _. exists e. eauto.
      - by intros e' w' [= <- <-]. }
  cbn [or_raise mret M_ret]. split; [|done]. split; [done|].
  intros (e & Hin & [Hnone|(n & Hnin & [Hnone|Hnone])]); exfalso.
  - assert (np.take old_elevs edge = None) by (apply take_None; eauto). congruence.
  - assert (np.take2 old_elevs (get_neighbor_list (_grid C) edge) = None)
      by (apply take2_None; eauto). congruence.
  - assert (np.take2 new_elevs (get_neighbor_list (_grid C) edge) = None)
      by (apply take2_None; eauto). congruence.
Qed.

(** X5. Between a state and itself no drainage direction changes: given
    elevations for the margin nodes and their neighbours, the test returns
    false when both arrays are the same. *)
Theorem drainage_directions_change_same (lake_nodes : list Z) (elevs : list Q) (w : World) :
  (∀ e, e ∈ get_lake_ext_margin (_grid C) lake_nodes → is_Some (np.index elevs e)) →
  (∀ e n, e ∈ get_lake_ext_margin (_grid C) lake_nodes → n ∈ neighbor_row (_grid C) e →
          is_Some (np.index elevs n)) →
  drainage_directions_change C lake_nodes elevs elevs w = Ok false w.
Proof.
  intros He Hn.
  destruct (drainage_directions_change_returns C elevs elevs lake_nodes w) as [b Hb];
    [done|by split; eapply Hn|].
  destruct b; [|done]. exfalso.
  apply drainage_directions_change_Ok in Hb as [_ [Hflips _]].
  destruct (Hflips eq_refl) as (e & n & oe & on & nn & _ & _ & _ & Hon & Hnn & Hd).
  congruence.
Qed.

End DrainageDirectionsEdges.

(** ** The errors and the edge cases of [add_slopes] *)

Section AddSlopesEdges.

Variable C : Collaborators.

(** X6. [add_slopes] raises [IndexError] exactly when the outlet node has
    no coordinates or some node that the mapper assigns to the outlet has no
    elevation; it raises nothing else, and a raising call leaves the state
    as it was. *)
Theorem add_slopes_IndexError (slope : Q) (outlet_node : Z) (w : World) :
  (add_slopes C slope outlet_node w = Raise IndexError w ↔
   np.index (node_x (_grid C)) outlet_node = None ∨
   np.index (node_y (_grid C)) outlet_node = None ∨
   ∃ k : nat, depression_outlet (_lf w) !! k = Some outlet_node ∧
              (length (_elev w) ≤ k)%nat)
  ∧ (∀ e w', add_slopes C slope outlet_node w = Raise e w' → e = IndexError ∧ w' = w).
Proof.
  unfold add_slopes. unfold mbind, M_bind, gets.
  destruct (np.index (node_x (_grid C)) outlet_node) as [x|] eqn:Hx.
  2:{ split; [split; [by left|done]|by intros e' w' [= <- <-]]. }
  cbn [or_raise mret M_ret].
  destruct (np.index (node_y (_grid C)) outlet_node) as [y|] eqn:Hy.
  2:{ split; [split; [by right; left|done]|by intros e' w' [= <- <-]]. }
  cbn [or_raise mret M_ret]. fold (lake_of w outlet_node).
  destruct (np.take (_elev w) (lake_of w outlet_node)) as [cur|] eqn:Hcur.
  2:{ split; [split; [|done]|by intros e' w' [= <- <-]]. intros _. right. right.
      apply take_None in Hcur as (z & Hz & Hnone).
      pose proof Hz as (k & o & Hk & ->%bool_decide_eq_true & ->)%elem_of_where.
      exists k. split; [done|]. rewrite index_nonneg in Hnone.
      by apply lookup_ge_None. }
  cbn [or_raise mret M_ret].
  destruct (take_Some_in_range _ _ _ Hcur (lake_of_nonneg w outlet_node)) as [Hr Hvals].
  destruct (put_all_spec (tilted C w slope (x, y)) _ _ _ Hr
              (add_vals_tilted C w slope (x, y) _ _ Hvals)) as (a' & Ha' & _).
  rewrite Ha'. cbn [or_raise mret M_ret]. split; [|done]. split; [done|].
  intros [?|[?|(k & Hk & Hlen)]]; [done..|]. exfalso.
  apply elem_of_lake_of in Hk. apply Hr in Hk. lia.
Qed.

(** X7. An outlet node no node is assigned to has an empty lake:
    [add_slopes] returns the elevations as they are, with no lake node. *)
Theorem add_slopes_no_lake (slope : Q) (outlet_node : Z) (w : World) :
  is_Some (np.index (node_x (_grid C)) outlet_node) →
  is_Some (np.index (node_y (_grid C)) outlet_node) →
  (∀ k : nat, depression_outlet (_lf w) !! k ≠ Some outlet_node) →
  add_slopes C slope outlet_node w = Ok (_elev w, []) w.
Proof.
  intros [x Hx] [y Hy] Hnone.
  assert (Hlake : lake_of w outlet_node = []).
  { apply elem_of_nil_inv. intros z Hz.
    pose proof Hz as (k & o & Hk & ->%bool_decide_eq_true & ->)%elem_of_where.
    by apply (Hnone k). }
  unfold add_slopes, mbind, M_bind, gets. rewrite Hx, Hy. cbn [or_raise mret M_ret].
  fold (lake_of w outlet_node). rewrite Hlake. done.
Qed.

End AddSlopesEdges.

(** ** What [apply_slope_current_lake] returns *)

Section AcceptedTilt.

Variable C : Collaborators.

Lemma reduced_slope_succ (slope : Q) (k : nat) :
  reduced_slope (slope * (1 # 10))%Q k = reduced_slope slope (S k).
Proof. unfold reduced_slope. by rewrite Nat.iter_succ_r. Qed.

(** X8. A returning call of [apply_slope_current_lake] leaves the elevations
    of its entry tilted once, at the requested slope multiplied by 0.1 some
    [k] times, and nothing else changed.  For a subsidiary lake [k] is 0.
    Otherwise [k] is the first number of reductions at which the tilt
    changes a relation at the margin of the lake: the tilts at the slopes
    tried before changed none. *)
Theorem apply_slope_current_lake_returns_tilt (fuel : nat) :
  ∀ (apply_slope : Q) (outlet_node : Z) (sublake : bool) (w w' : World) (u : unit),
    apply_slope_current_lake C fuel apply_slope outlet_node sublake w = Ok u w' →
    ∃ (k : nat) (new_elevs : list Q),
      (k < fuel)%nat ∧ (sublake = true → k = 0%nat) ∧
      add_slopes C (reduced_slope apply_slope k) outlet_node w
      = Ok (new_elevs, lake_of w outlet_node) w ∧
      w' = set_elev new_elevs w ∧
      (sublake = false →
       relation_flips (_grid C) (lake_of w outlet_node) (_elev w) new_elevs) ∧
      (∀ j, (j < k)%nat →
         ∃ tried, add_slopes C (reduced_slope apply_slope j) outlet_node w
                  = Ok (tried, lake_of w outlet_node) w ∧
                  ¬ relation_flips (_grid C) (lake_of w outlet_node) (_elev w) tried).
Proof.
  induction fuel as [|fuel IH]; intros s o sub w w' u H; [done|].
  cbn [apply_slope_current_lake] in H.
  apply bind_Ok in H as (start & w0 & [-> ->]%gets_Ok & H).
  apply bind_Ok in H as ([new lake] & w1 & Hadd & H).
  pose proof Hadd as (-> & -> & Hlen & x & y & _ & _ & Hk)%add_slopes_Ok.
  apply bind_Ok in H as (u' & w2 & (e' & He' & ->)%assign_elev_Ok & H).
  rewrite <- Hlen, broadcast_to_same_length in He'. injection He' as <-.
  destruct sub.
  { apply pass_Ok in H as ->. exists 0%nat, new.
    repeat split; [lia|done..|intros j Hj; lia]. }
  apply bind_Ok in H as (elev & w3 & [-> ->]%gets_Ok & H).
  apply bind_Ok in H as (changed & w4 & Htest & H).
  pose proof Htest as [-> Hflips]%drainage_directions_change_Ok.
  cbn [set_elev _elev] in Hflips.
  destruct changed.
  { apply pass_Ok in H as ->. exists 0%nat, new.
    repeat split; [lia|done..|by intros _; apply Hflips|intros j Hj; lia]. }
  apply bind_Ok in H as (vals & w5 & [Hvals ->]%or_raise_Ok & H).
  apply bind_Ok in H as (elev & w6 & [-> ->]%gets_Ok & H).
  apply bind_Ok in H as (elev' & w7 & [Hput ->]%or_raise_Ok & H).
  apply bind_Ok in H as (u'' & w8 & ->%modify_Ok & H).
  cbn [set_elev _elev] in Hput.
  assert (elev' = _elev w) as ->.
  { eapply restore_lake; [apply lake_of_nonneg|exact Hlen|exact Hk|exact Hvals|exact Hput]. }
  rewrite set_elev_set_elev, set_elev_same in H.
  apply IH in H as (k & new' & Hlt & _ & Hadd' & -> & Hflips' & Hbefore).
  exists (S k), new'. rewrite <- reduced_slope_succ.
  repeat split; [lia|done..|].
  intros [|j] Hj.
  - exists new. split; [done|]. intros Hf. by apply Hflips in Hf.
  - rewrite <- reduced_slope_succ. apply Hbefore. lia.
Qed.

(** X9. Where the lake is not subsidiary and the tilt changes no relation
    at its margin, at the requested slope or at that slope multiplied by 0.1
    any number of times, [apply_slope_current_lake] does not return: each
    iteration puts the elevations back and goes on with a tenth of the
    slope, so no number of iterations is enough. *)
Theorem apply_slope_current_lake_never_accepts (outlet_node : Z) (w : World) (fuel : nat) :
  ∀ apply_slope : Q,
    (∀ k, ∃ tried,
       add_slopes C (reduced_slope apply_slope k) outlet_node w
       = Ok (tried, lake_of w outlet_node) w ∧
       drainage_directions_change C (lake_of w outlet_node) (_elev w) tried
         (set_elev tried w)
       = Ok false (set_elev tried w)) →
    apply_slope_current_lake C fuel apply_slope outlet_node false w = OutOfFuel.
Proof.
  induction fuel as [|fuel IH]; intros s H; [done|].
  destruct (H 0%nat) as (tried & Hadd & Htest).
  change (reduced_slope s 0) with s in Hadd, Htest.
  rewrite (apply_slope_current_lake_step C fuel s outlet_node false false w tried _
             Hadd (λ _, Htest)).
  cbn [orb]. apply IH. intros k. rewrite reduced_slope_succ. apply H.
Qed.

End AcceptedTilt.

(** ** Every exit of [fill_pits] *)

Lemma bind_eval_Raise {A B} (m : M A) (f : A → M B) (w w1 : World) (e : exn) :
  m w = Raise e w1 → (m ≫= f) w = Raise e w1.
Proof. intros H. unfold mbind, M_bind. by rewrite H. Qed.

Lemma on_exit_bind {A B} (m : M A) (f : A → M B) (w : World)
    (Q1 : A → World → Prop) (Q : B → World → Prop) (E : exn → World → Prop) :
  on_exit m w Q1 E →
  (∀ a w1, Q1 a w1 → on_exit (f a) w1 Q E) →
  on_exit (m ≫= f) w Q E.
Proof.
  unfold on_exit, mbind, M_bind. intros Hm Hf.
  destruct (m w) as [a w1|e w1|]; [by apply Hf|done|done].
Qed.

Lemma on_exit_weaken {A} (m : M A) (w : World)
    (Q Q' : A → World → Prop) (E E' : exn → World → Prop) :
  on_exit m w Q E → (∀ a w', Q a w' → Q' a w') → (∀ e w', E e w' → E' e w') →
  on_exit m w Q' E'.
Proof. unfold on_exit. destruct (m w); auto. Qed.

Lemma on_exit_reads_only {A} (m : M A) (w : World) (P : World → Prop) :
  reads_only m → P w → on_exit m w (λ _, P) (λ _, P).
Proof.
  intros Hm HP. eapply on_exit_weaken; [apply Hm|..]; by intros ? ? ->.
Qed.

Lemma reads_only_bind {A B} (m : M A) (f : A → M B) :
  reads_only m → (∀ a, reads_only (f a)) → reads_only (m ≫= f).
Proof.
  intros Hm Hf w. eapply on_exit_bind; [apply Hm|].
  intros a w1 ->. apply Hf.
Qed.

Lemma reads_only_gets {A} (f : World → A) : reads_only (gets f).
Proof. by intros w. Qed.

Lemma reads_only_or_raise {A} (e : exn) (o : option A) : reads_only (or_raise e o).
Proof. intros w. by destruct o. Qed.

Lemma reads_only_mret {A} (a : A) : reads_only (mret a).
Proof. by intros w. Qed.

Ltac reads_only_steps :=
  repeat first [ apply reads_only_bind; [|intros ?] | apply reads_only_gets
               | apply reads_only_or_raise | apply reads_only_mret ].

Lemma reads_only_add_slopes (C : Collaborators) (slope : Q) (outlet_node : Z) :
  reads_only (add_slopes C slope outlet_node).
Proof. unfold add_slopes. reads_only_steps. Qed.

Lemma reads_only_drainage_directions_change (C : Collaborators) (lake_nodes : list Z)
    (old_elevs new_elevs : list Q) :
  reads_only (drainage_directions_change C lake_nodes old_elevs new_elevs).
Proof. unfold drainage_directions_change. reads_only_steps. Qed.

Lemma reads_only_field (name : string) : reads_only (field name).
Proof. unfold field. reads_only_steps. Qed.

Lemma on_exit_for_each {A} (P : World → Prop) (l : list A) (body : A → M unit) :
  (∀ x w, P w → on_exit (body x) w (λ _, P) (λ _, P)) →
  ∀ w, P w → on_exit (for_each l body) w (λ _, P) (λ _, P).
Proof.
  intros Hbody. induction l as [|x l IH]; intros w HP; simpl.
  - done.
  - eapply on_exit_bind; [by apply Hbody|]. intros u w1 HP1. by apply IH.
Qed.

Lemma on_exit_bind_gets {A B} (g : World → A) (f : A → M B) (w : World)
    (Q : B → World → Prop) (E : exn → World → Prop) :
  on_exit (f (g w)) w Q E → on_exit (gets g ≫= f) w Q E.
Proof. done. Qed.

Lemma on_exit_bind_modify {B} (h : World → World) (f : unit → M B) (w : World)
    (Q : B → World → Prop) (E : exn → World → Prop) :
  on_exit (f ()) (h w) Q E → on_exit (modify h ≫= f) w Q E.
Proof. done. Qed.

Lemma on_exit_bind_or_raise {A B} (e : exn) (o : option A) (f : A → M B) (w : World)
    (Q : B → World → Prop) (E : exn → World → Prop) :
  (∀ a, o = Some a → on_exit (f a) w Q E) → (o = None → E e w) →
  on_exit (or_raise e o ≫= f) w Q E.
Proof. intros HQ HE. destruct o; [by apply HQ|by apply HE]. Qed.

Lemma on_exit_modify (f : World → World) (w : World)
    (Q : unit → World → Prop) (E : exn → World → Prop) :
  Q () (f w) → on_exit (modify f) w Q E.
Proof. done. Qed.

Lemma on_exit_pass (w : World) (Q : unit → World → Prop) (E : exn → World → Prop) :
  Q () w → on_exit pass w Q E.
Proof. done. Qed.

Section Exits.

Variable C : Collaborators.
Variable J : list Q → list Q → Prop.
Variable good : list Q → Prop.
Variable okslope : Q → Prop.

Hypothesis J_refl : ∀ e, J e e.
Hypothesis J_trans : ∀ e1 e2 e3, J e1 e2 → J e2 e3 → J e1 e3.
Hypothesis J_iadd : ∀ e d e', good d → iadd e d = Some e' → J e e'.
Hypothesis J_tilt : ∀ s o w new lake,
  okslope s → add_slopes C s o w = Ok (new, lake) w → J (_elev w) new.
Hypothesis okslope_reduce : ∀ s, okslope s → okslope (s * (1 # 10))%Q.
Hypothesis good_depth : ∀ pits r e f l d,
  (map_depressions C pits r e f l).1 !! "depression__depth" = Some d → good d.

Variable w0 : World.

Lemma kept_set_elev (w : World) (e : list Q) :
  kept J w0 w → J (_elev w) e → kept J w0 (set_elev e w).
Proof. intros (? & ? & ?) ?. repeat split; [done..|]. by eapply J_trans. Qed.

Lemma assign_elev_same_length (new : list Q) (w : World) :
  length new = length (_elev w) → assign_elev new w = Ok () (set_elev new w).
Proof.
  intros Hlen. unfold assign_elev. rewrite (bind_eval _ _ w w (_elev w)) by done.
  rewrite <- Hlen, broadcast_to_same_length. done.
Qed.

Lemma apply_slope_current_lake_exits (fuel : nat) :
  ∀ (apply_slope : Q) (outlet_node : Z) (sublake : bool) (w : World),
    okslope apply_slope → kept J w0 w →
    on_exit (apply_slope_current_lake C fuel apply_slope outlet_node sublake) w
      (λ _, kept J w0) (λ _, kept J w0).
Proof.
  induction fuel as [|fuel IH]; intros s o sub w Hs Hw; [done|].
  pose proof (reads_only_add_slopes C s o w) as Hro. unfold on_exit in Hro.
  destruct (add_slopes C s o w) as [[new lake] w1|e w1|] eqn:Hadd; subst.
  - pose proof (J_tilt _ _ _ _ _ Hs Hadd) as Hnew.
    pose proof (kept_set_elev _ _ Hw Hnew) as Hw'.
    pose proof Hadd as (_ & _ & Hlen & _)%add_slopes_Ok.
    destruct sub.
    { unfold on_exit.
      by rewrite (apply_slope_current_lake_step C fuel s o true true w new lake Hadd). }
    pose proof (reads_only_drainage_directions_change C lake (_elev w) new (set_elev new w))
      as Hro'.
    unfold on_exit in Hro'.
    destruct (drainage_directions_change C lake (_elev w) new (set_elev new w))
      as [changed w2|e w2|] eqn:Htest; subst.
    + unfold on_exit.
      rewrite (apply_slope_current_lake_step C fuel s o false changed w new lake Hadd
                 (λ _, Htest)).
      destruct changed; [done|]. cbn [orb]. apply IH; auto.
    + unfold on_exit. cbn [apply_slope_current_lake].
      rewrite (bind_eval _ _ w w (_elev w)) by done.
      rewrite (bind_eval _ _ _ _ _ Hadd).
      rewrite (bind_eval _ _ _ _ _ (assign_elev_same_length _ _ Hlen)).
      rewrite (bind_eval _ _ _ _ new) by done.
      by rewrite (bind_eval_Raise _ _ _ _ _ Htest).
    + unfold on_exit. cbn [apply_slope_current_lake].
      rewrite (bind_eval _ _ w w (_elev w)) by done.
      rewrite (bind_eval _ _ _ _ _ Hadd).
      rewrite (bind_eval _ _ _ _ _ (assign_elev_same_length _ _ Hlen)).
      rewrite (bind_eval _ _ _ _ new) by done.
      unfold mbind, M_bind at 1. by rewrite Htest.
  - unfold on_exit. cbn [apply_slope_current_lake].
    rewrite (bind_eval _ _ w w (_elev w)) by done.
    by rewrite (bind_eval_Raise _ _ _ _ _ Hadd).
  - unfold on_exit. cbn [apply_slope_current_lake].
    rewrite (bind_eval _ _ w w (_elev w)) by done.
    unfold mbind, M_bind at 1. by rewrite Hadd.
Qed.

Lemma call_map_depressions_exits (pits : option (list Z)) (reroute_flow : bool) (w : World) :
  kept J w0 w →
  on_exit (call_map_depressions C pits reroute_flow) w
    (λ _ w', kept J w0 w' ∧ depth_good good w') (λ _, kept J w0).
Proof.
  intros Hw. unfold on_exit, call_map_depressions.
  destruct (map_depressions C pits reroute_flow (_elev w) (at_node w) (_lf w))
    as [f l] eqn:Hm.
  split; [exact Hw|]. intros d Hd.
  apply (good_depth pits reroute_flow (_elev w) (at_node w) (_lf w)). by rewrite Hm.
Qed.

Lemma call_route_flow_exits (w : World) :
  kept J w0 w → on_exit (call_route_flow C) w (λ _, kept J w0) (λ _, kept J w0).
Proof.
  intros Hw. unfold on_exit, call_route_flow.
  by destruct (route_flow C (_elev w) (at_node w) (_fr w)).
Qed.

Lemma fill_step_exits (w : World) (k : M unit) (Q : unit → World → Prop) :
  kept J w0 w → depth_good good w →
  (∀ w1, kept J w0 w1 → on_exit k w1 Q (λ _, kept J w0)) →
  on_exit (depth ← field "depression__depth"; iadd_elev depth;; k) w
    Q (λ _, kept J w0).
Proof.
  intros Hw Hgood Hk.
  eapply on_exit_bind with (Q1 := λ d w1, w1 = w ∧ good d).
  { unfold field. apply on_exit_bind_gets.
    destruct (at_node w !! "depression__depth") as [d|] eqn:Hd; [|done].
    split; [done|]. by apply Hgood. }
  intros d w1 [-> Hd].
  eapply on_exit_bind with (Q1 := λ _, kept J w0); [|by intros; apply Hk].
  unfold iadd_elev. apply on_exit_bind_gets.
  apply on_exit_bind_or_raise; [|done].
  intros e' He'. apply on_exit_modify.
  apply kept_set_elev; [done|]. by eapply J_iadd.
Qed.

Lemma slope_rounds_exits (fuel : nat) :
  ∀ (apply_slope : Q) (sublake : bool) (w : World),
    okslope apply_slope → kept J w0 w →
    on_exit (slope_rounds C fuel apply_slope sublake) w
      (λ _, kept J w0) (λ _, kept J w0).
Proof.
  induction fuel as [|fuel IH]; intros s sub w Hs Hw; [done|].
  cbn [slope_rounds]. apply on_exit_bind_gets.
  eapply on_exit_bind.
  { apply (on_exit_for_each (kept J w0)); [|exact Hw].
    intros o w1 Hw1. by apply apply_slope_current_lake_exits. }
  intros u w1 Hw1.
  eapply on_exit_bind; [by apply call_map_depressions_exits|].
  intros u' w2 [Hw2 Hgood]. apply on_exit_bind_gets.
  case_bool_decide; [by apply on_exit_pass|].
  apply fill_step_exits; [done..|]. intros w3 Hw3. by apply IH.
Qed.

Lemma stabilise_exits (fuel : nat) (apply_slope : Q) (sublake : bool)
    (stability_increment : nat) (w : World) :
  okslope apply_slope → kept J w0 w →
  on_exit (stabilise C fuel apply_slope sublake stability_increment) w
    (λ _, kept J w0) (λ _, kept J w0).
Proof.
  intros Hs Hw. destruct fuel as [|fuel]; [done|]. cbn [stabilise].
  eapply on_exit_bind; [by apply slope_rounds_exits|]. intros u w1 Hw1.
  do 3 apply on_exit_bind_gets.
  eapply on_exit_bind.
  { apply (on_exit_reads_only _ _ (kept J w0));
      [apply reads_only_drainage_directions_change|exact Hw1]. }
  intros unstable w2 Hw2. destruct unstable; [|by apply on_exit_pass].
  eapply on_exit_bind with (Q1 := λ _ _, False); [exact Hw2|done].
Qed.

Lemma kept_set_at_node (w : World) (f : gmap string (list Q)) :
  kept J w0 w → kept J w0 (set_at_node f w).
Proof. done. Qed.

(** On every exit of [fill_pits] the snapshot holds the elevations of the
    entry and these are related by [J] to the elevations left; a raising
    exit leaves the output array as it was. *)
Lemma fill_pits_exits (fuel : nat) (apply_slope : option Q) (w : World) :
  w0 = set_original_elev (_elev w) w →
  (∀ s, apply_slope = Some s → okslope s) →
  on_exit (fill_pits C fuel apply_slope) w
    (λ _ w', original_elev w' = _elev w ∧ J (_elev w) (_elev w'))
    (λ _ w', original_elev w' = _elev w ∧ J (_elev w) (_elev w') ∧
             sed_fill_depth w' = sed_fill_depth w).
Proof.
  intros Hw0 Hslope.
  assert (Hstart : kept J w0 w0) by (repeat split; apply J_refl).
  assert (Hexc : ∀ w', kept J w0 w' →
            original_elev w' = _elev w ∧ J (_elev w) (_elev w') ∧
            sed_fill_depth w' = sed_fill_depth w).
  { intros w' (Ho & Hs & HJ). rewrite Hw0 in Ho, Hs, HJ. done. }
  unfold fill_pits. apply on_exit_bind_gets. apply on_exit_bind_modify.
  fold (set_original_elev (_elev w) w). rewrite <- Hw0.
  eapply on_exit_bind with (Q1 := λ _, kept J w0).
  { destruct (elements (lf_output_var_names C ∪ fr_output_var_names C)); simpl.
    - exact Hstart.
    - by apply Hexc. }
  intros [existing spurious] w1 Hw1.
  eapply on_exit_weaken with (Q := λ _ w', original_elev w' = _elev w ∧ J (_elev w) (_elev w'))
                             (E := λ _, kept J w0); [|done|by intros; apply Hexc].
  eapply on_exit_bind; [by apply call_route_flow_exits|]. intros u1 w2 Hw2.
  apply on_exit_bind_gets.
  eapply on_exit_bind; [by apply call_map_depressions_exits|]. intros u2 w3 [Hw3 Hgood].
  apply fill_step_exits; [done..|]. intros w4 Hw4.
  eapply on_exit_bind with (Q1 := λ _, kept J w0).
  { destruct apply_slope as [slope|]; [|exact Hw4].
    destruct (truthy (Some slope)); [|exact Hw4].
    apply stabilise_exits; [by apply Hslope|exact Hw4]. }
  intros u4 w5 Hw5.
  eapply on_exit_bind with (Q1 := λ _, kept J w0).
  { apply (on_exit_for_each (kept J w0)); [|exact Hw5].
    intros x w6 Hw6. apply on_exit_modify. by apply kept_set_at_node. }
  intros u5 w6 Hw6.
  eapply on_exit_bind with (Q1 := λ _, kept J w0).
  { apply (on_exit_for_each (kept J w0)); [|exact Hw6].
    intros x w7 Hw7. apply on_exit_modify. by apply kept_set_at_node. }
  intros u6 w7 Hw7.
  do 2 apply on_exit_bind_gets.
  apply on_exit_bind_or_raise; [|done]. intros d Hd.
  apply on_exit_bind_gets.
  apply on_exit_bind_or_raise; [|done]. intros sd Hsd.
  apply on_exit_modify. by destruct (Hexc _ Hw7) as (? & ? & _).
Qed.

End Exits.

Lemma iadd_length (e d e' : list Q) : iadd e d = Some e' → length e' = length e.
Proof.
  unfold iadd. destruct (np.broadcast_to (length e) d) as [d'|] eqn:Hb; [|done].
  simpl. intros [= <-]. apply broadcast_to_Some in Hb as [Hlen _].
  by rewrite length_zip_with_l_eq.
Qed.

(** X10. On every exit of [fill_pits], by a return or by an exception, the
    snapshot [original_elev] holds the elevations of the entry and the
    elevation array has the length it had; an exception leaves
    [sediment_fill__depth] as it was before the call (the elevations may
    have been changed by then). *)
Theorem fill_pits_every_exit (C : Collaborators) (fuel : nat) (apply_slope : option Q)
    (w : World) :
  (∀ u w', fill_pits C fuel apply_slope w = Ok u w' →
           original_elev w' = _elev w ∧ length (_elev w') = length (_elev w)) ∧
  (∀ e w', fill_pits C fuel apply_slope w = Raise e w' →
           original_elev w' = _elev w ∧ length (_elev w') = length (_elev w) ∧
           sed_fill_depth w' = sed_fill_depth w).
Proof.
  pose proof (fill_pits_exits C (λ e e', length e' = length e) (λ _, True) (λ _, True))
    as Hexits.
  specialize (Hexits (λ _, eq_refl)).
  specialize (Hexits (λ e1 e2 e3 H12 H23, eq_trans H23 H12)).
  specialize (Hexits (λ e d e' _ H, iadd_length e d e' H)).
  assert (Htilt : ∀ s o w1 new lake, True →
            add_slopes C s o w1 = Ok (new, lake) w1 → length new = length (_elev w1)).
  { by intros s o w1 new lake _ (_ & _ & Hlen & _)%add_slopes_Ok. }
  specialize (Hexits Htilt (λ _ _, I) (λ _ _ _ _ _ _ _, I)
                (set_original_elev (_elev w) w) fuel apply_slope w eq_refl (λ _ _, I)).
  unfold on_exit in Hexits. split.
  - intros u w' H. by rewrite H in Hexits.
  - intros e w' H. by rewrite H in Hexits.
Qed.

(** X11. Where the mapper supplies non-negative depths and the grid
    non-negative distances, and the slope, if one is given, is not
    negative, no exit of [fill_pits] leaves an elevation below its value at
    the entry: this holds of the elevations an exception leaves behind as
    of the returned ones. *)
Theorem fill_pits_never_lowers (C : Collaborators) (fuel : nat) (apply_slope : option Q)
    (w : World) :
  depths_nonneg C → distances_nonneg (_grid C) →
  (∀ s, apply_slope = Some s → (0 <= s)%Q) →
  (∀ u w', fill_pits C fuel apply_slope w = Ok u w' → Forall2 Qle (_elev w) (_elev w')) ∧
  (∀ e w', fill_pits C fuel apply_slope w = Raise e w' → Forall2 Qle (_elev w) (_elev w')).
Proof.
  intros Hdepth Hdist Hslope.
  pose proof (fill_pits_exits C (Forall2 Qle) (Forall (Qle 0)) (Qle 0)) as Hexits.
  assert (Hrefl : ∀ e : list Q, Forall2 Qle e e).
  { intros e. apply Forall_Forall2_diag, Forall_forall. intros. apply Qle_refl. }
  assert (Htrans : ∀ e1 e2 e3 : list Q,
            Forall2 Qle e1 e2 → Forall2 Qle e2 e3 → Forall2 Qle e1 e3).
  { intros e1 e2 e3 H12 H23. eapply Forall2_trans; [|exact H12|exact H23].
    intros x y z. apply Qle_trans. }
  assert (Htilt : ∀ s o w1 new lake, (0 <= s)%Q →
            add_slopes C s o w1 = Ok (new, lake) w1 → Forall2 Qle (_elev w1) new).
  { intros s o w1 new lake Hs Hadd. by eapply add_slopes_raised. }
  assert (Hreduce : ∀ s, (0 <= s)%Q → (0 <= s * (1 # 10))%Q).
  { intros s Hs. apply Qmult_le_0_compat; [done|by compute]. }
  specialize (Hexits Hrefl Htrans (λ e d e' Hd H, iadd_raised e d e' Hd H) Htilt Hreduce
                Hdepth (set_original_elev (_elev w) w) fuel apply_slope w eq_refl Hslope).
  unfold on_exit in Hexits. split.
  - intros u w' H. rewrite H in Hexits. tauto.
  - intros e w' H. rewrite H in Hexits. tauto.
Qed.

(** ** The flat fill, and the state a sloped fill returns *)

Section Returns.

Variable C : Collaborators.

Lemma slope_rounds_last_pass (fuel : nat) :
  ∀ (apply_slope : Q) (sublake : bool) (w w' : World) (u : unit),
    slope_rounds C fuel apply_slope sublake w = Ok u w' →
    np.sum (lake_outlets (_lf w')) = 0 ∧
    ∃ f l, map_depressions C None false (_elev w') f l = (at_node w', _lf w').
Proof.
  induction fuel as [|fuel IH]; intros s sub w w' u H; [done|].
  cbn [slope_rounds] in H.
  apply bind_Ok in H as (outlets & w0 & [-> ->]%gets_Ok & H).
  apply bind_Ok in H as (u1 & w1 & _ & H).
  apply bind_Ok in H as (u2 & w2 & (He & _ & _ & _ & Hf & Hl)%call_map_depressions_Ok & H).
  apply bind_Ok in H as (outlets' & w3 & [-> ->]%gets_Ok & H).
  case_bool_decide as Hsum.
  - apply pass_Ok in H as ->. split; [done|].
    exists (at_node w1), (_lf w1). rewrite He, Hf, Hl.
    by destruct (map_depressions C None false (_elev w1) (at_node w1) (_lf w1)).
  - apply bind_Ok in H as (d & w4 & _ & H).
    apply bind_Ok in H as (u3 & w5 & _ & H).
    by apply IH in H.
Qed.

(** X12. When [fill_pits] returns from a sloped fill, the attributes of
    the mapper and the node fields are those of a mapping pass
    ([pits=None], [reroute_flow=False]) made on the returned elevations,
    and the ids of the lake outlets that pass reported sum to zero. *)
Theorem fill_pits_sloped_last_pass (fuel : nat) (slope : Q) (w w' : World) (u : unit) :
  truthy (Some slope) = true →
  fill_pits C fuel (Some slope) w = Ok u w' →
  np.sum (lake_outlets (_lf w')) = 0 ∧
  ∃ f l, map_depressions C None false (_elev w') f l = (at_node w', _lf w').
Proof.
  intros Ht (_ & w1 & w2 & w3 & w4 & d & sd & _ & _ & _ & _ & Hslope & _ & ->)%fill_pits_Ok.
  rewrite Ht in Hslope.
  apply stabilise_Ok in Hslope as (fuel' & _ & Hrounds & _).
  by apply slope_rounds_last_pass in Hrounds.
Qed.

(** X13. A returning call of [fill_pits] without a slope is the flat fill:
    the flow router ran once and the mapper once, on the elevations of the
    entry and with the pits of the router; the returned elevations are the
    elevations of the entry plus the depths the mapper left in
    [depression__depth]; and, the output array having an entry per node,
    [sediment_fill__depth] is the difference, taken entry by entry, of the
    returned elevations and the elevations of the entry. *)
Theorem fill_pits_flat_fill (fuel : nat) (w w' : World) (u : unit) :
  fill_pits C fuel None w = Ok u w' →
  let routed := route_flow C (_elev w) (at_node w) (_fr w) in
  let mapped := map_depressions C (Some (pit_node_ids routed.2)) false
                  (_elev w) routed.1 (_lf w) in
  at_node w' = mapped.1 ∧ _lf w' = mapped.2 ∧ _fr w' = routed.2 ∧
  ∃ d, mapped.1 !! "depression__depth" = Some d ∧
       iadd (_elev w) d = Some (_elev w') ∧
       (length (sed_fill_depth w) = length (_elev w) →
        sed_fill_depth w' = zip_with Qminus (_elev w') (_elev w)).
Proof.
  intros (_ & w1 & w2 & w3 & w4 & d & sd & Hroute & Hmap & Hd & Hadd & -> & Hsd & ->)%fill_pits_Ok.
  cbn zeta.
  unfold call_route_flow in Hroute. cbn [set_original_elev _elev at_node _fr] in Hroute.
  destruct (route_flow C (_elev w) (at_node w) (_fr w)) as [f1 r1] eqn:Hr.
  injection Hroute as <-.
  unfold call_map_depressions in Hmap. cbn [_elev at_node _lf _fr pit_node_ids] in Hmap.
  destruct (map_depressions C (Some (pit_node_ids r1)) false (_elev w) f1 (_lf w))
    as [f2 l2] eqn:Hm.
  injection Hmap as <-.
  apply field_Ok in Hd as [Hd _]. cbn [at_node] in Hd.
  apply iadd_elev_Ok in Hadd as (e' & He' & ->). cbn [_elev] in He'.
  cbn [set_sed_fill_depth set_elev at_node _lf _fr _elev sed_fill_depth original_elev fst snd]
    in *.
  rewrite Hm. cbn [fst snd].
  split; [done|]. split; [done|]. split; [done|].
  exists d. split; [done|]. split; [done|].
  intros Hlen.
  pose proof (iadd_length _ _ _ He') as Hle.
  unfold sub in Hsd. rewrite bool_decide_eq_true_2 in Hsd by done.
  cbn in Hsd. unfold np.broadcast_to in Hsd.
  rewrite bool_decide_eq_true_2 in Hsd by (rewrite length_zip_with_l_eq; congruence).
  by injection Hsd as <-.
Qed.

(** X14. When the collaborators declare no output field and the mapper
    leaves no [depression__depth] field, [fill_pits] raises [FieldError] on
    it, with or without a slope, before it has written an elevation. *)
Theorem fill_pits_no_depth_field (fuel : nat) (apply_slope : option Q) (w : World) :
  lf_output_var_names C ∪ fr_output_var_names C = ∅ →
  let routed := route_flow C (_elev w) (at_node w) (_fr w) in
  let mapped := map_depressions C (Some (pit_node_ids routed.2)) false
                  (_elev w) routed.1 (_lf w) in
  mapped.1 !! "depression__depth" = None →
  ∃ w', fill_pits C fuel apply_slope w = Raise (FieldError "depression__depth") w' ∧
        _elev w' = _elev w ∧ sed_fill_depth w' = sed_fill_depth w.
Proof.
  intros Hnames. cbn zeta. intros Hnone.
  destruct (route_flow C (_elev w) (at_node w) (_fr w)) as [f1 r1] eqn:Hr.
  cbn [fst snd] in Hnone.
  destruct (map_depressions C (Some (pit_node_ids r1)) false (_elev w) f1 (_lf w))
    as [f2 l2] eqn:Hm.
  cbn [fst] in Hnone.
  set (w0 := set_original_elev (_elev w) w).
  set (w1 := {| _elev := _elev w0; original_elev := original_elev w0;
                sed_fill_depth := sed_fill_depth w0; at_node := f1;
                _lf := _lf w0; _fr := r1 |}).
  set (w2 := {| _elev := _elev w1; original_elev := original_elev w1;
                sed_fill_depth := sed_fill_depth w1; at_node := f2;
                _lf := l2; _fr := _fr w1 |}).
  assert (Hroute : call_route_flow C w0 = Ok () w1).
  { unfold call_route_flow. cbn [w0 set_original_elev _elev at_node _fr]. by rewrite Hr. }
  assert (Hmap : call_map_depressions C (Some (pit_node_ids (_fr w1))) false w1 = Ok () w2).
  { unfold call_map_depressions.
    cbn [w1 w0 set_original_elev _elev at_node _lf _fr]. by rewrite Hm. }
  assert (Hfield : field "depression__depth" w2 = Raise (FieldError "depression__depth") w2).
  { unfold field. rewrite (bind_eval _ _ w2 w2 (at_node w2)) by done.
    cbn [w2 at_node]. by rewrite Hnone. }
  exists w2. split; [|done].
  unfold fill_pits.
  rewrite (bind_eval _ _ w w (_elev w)) by done.
  rewrite (bind_eval _ _ w w0 ()) by done.
  rewrite Hnames, elements_empty. cbn [capture_fields].
  rewrite (bind_eval _ _ w0 w0 (∅, ∅)) by done.
  rewrite (bind_eval _ _ _ _ _ Hroute).
  rewrite (bind_eval _ _ w1 w1 (pit_node_ids (_fr w1))) by done.
  rewrite (bind_eval _ _ _ _ _ Hmap).
  by rewrite (bind_eval_Raise _ _ _ _ _ Hfield).
Qed.

End Returns.

(** ** The fatal error *)

(** X15. [fill_pits] never raises [StandardError]: the statement that
    raises it (lines 180-183) comes after the unbound name of line 178, and
    is out of reach whatever the input and whatever the collaborators
    return. *)
Theorem fill_pits_never_StandardError (C : Collaborators) (fuel : nat)
    (apply_slope : option Q) (w w' : World) (e : exn) :
  fill_pits C fuel apply_slope w = Raise e w' →
  not_fatal e ∧ ∀ msg, e ≠ StandardError msg.
Proof.
  intros H. pose proof (fill_pits_not_fatal C fuel apply_slope w e w' H) as He.
  split; [done|]. by intros msg ->.
Qed.

(** ** The constructor *)

Section Initialize.

Variables (fields : gmap string (list Q)) (number_of_nodes : nat).
Variables (lf : LakeMapper) (fr : FlowRouter).

(** X16. The elevations of the component are those of the grid's field
    [topographic__elevation] where the grid has one, whatever the input
    holds; otherwise those of the field that the input names under the key
    [ELEVATION_FIELD_NAME].  In both cases the constructor returns, with an
    output array of one zero per node; and it returns in no other case. *)
Theorem initialize_elevation_field (input_stream : option (gmap string string)) :
  (∀ name w,
     Init.initialize fields number_of_nodes lf fr input_stream = inr (name, w) →
     fields !! name = Some (_elev w) ∧
     sed_fill_depth w = replicate number_of_nodes 0%Q ∧
     (name = "topographic__elevation" ∨
      fields !! "topographic__elevation" = None ∧
      ∃ d, input_stream = Some d ∧ d !! "ELEVATION_FIELD_NAME" = Some name)) ∧
  (∀ elev, fields !! "topographic__elevation" = Some elev →
     ∃ w, Init.initialize fields number_of_nodes lf fr input_stream
          = inr ("topographic__elevation", w) ∧ _elev w = elev) ∧
  (∀ d name elev,
     fields !! "topographic__elevation" = None →
     input_stream = Some d → d !! "ELEVATION_FIELD_NAME" = Some name →
     fields !! name = Some elev →
     ∃ w, Init.initialize fields number_of_nodes lf fr input_stream = inr (name, w) ∧
          _elev w = elev).
Proof.
  unfold Init.initialize, Init.at_node_get, Init.read_string.
  split; [|split].
  - intros name w.
    destruct (fields !! "topographic__elevation") as [elev|] eqn:Htopo.
    { intros [= <- <-]. cbn [_elev sed_fill_depth]. by eauto. }
    destruct input_stream as [d|]; [|done].
    destruct (d !! "ELEVATION_FIELD_NAME") as [named|] eqn:Hkey; [|done].
    destruct (fields !! named) as [elev|] eqn:Hnamed; [|done].
    intros [= <- <-]. cbn [_elev sed_fill_depth]. by eauto 8.
  - intros elev ->. by eexists.
  - intros d name elev -> -> -> ->. by eexists.
Qed.

(** X17. The errors of the constructor.  They arise only where the grid has
    no field [topographic__elevation]: [AttributeError] where no input is
    given, [MissingKeyError] on [ELEVATION_FIELD_NAME] where the input lacks
    that key, and [FieldError] where the input names a field the grid does
    not hold (the clause [except AttributeError] of line 97 does not catch
    it, so the message of lines 98-99 is not printed and no component
    without elevations is built). *)
Theorem initialize_errors (input_stream : option (gmap string string)) (e : Init.error) :
  Init.initialize fields number_of_nodes lf fr input_stream = inl e ↔
  fields !! "topographic__elevation" = None ∧
  match e with
  | Init.AttributeError => input_stream = None
  | Init.MissingKeyError key =>
      key = "ELEVATION_FIELD_NAME" ∧
      ∃ d, input_stream = Some d ∧ d !! "ELEVATION_FIELD_NAME" = None
  | Init.FieldError name =>
      ∃ d, input_stream = Some d ∧ d !! "ELEVATION_FIELD_NAME" = Some name ∧
           fields !! name = None
  end.
Proof.
  unfold Init.initialize, Init.at_node_get, Init.read_string.
  destruct (fields !! "topographic__elevation") as [elev|] eqn:Htopo.
  { split; [done|by intros [? _]]. }
  destruct input_stream as [d|].
  2:{ split.
      - intros [= <-]. done.
      - intros [_ H]. destruct e; [done|by destruct H as (_ & ? & ? & _)|].
        by destruct H as (? & ? & _). }
  destruct (d !! "ELEVATION_FIELD_NAME") as [named|] eqn:Hkey.
  2:{ split.
      - intros [= <-]. split; [done|]. split; [done|]. by exists d.
      - intros [_ H]. destruct e as [|key|name]; [done| |].
        + by destruct H as [-> _].
        + destruct H as (d' & [= <-] & Hk & _). congruence. }
  destruct (fields !! named) as [elev|] eqn:Hnamed.
  - split; [done|]. intros [_ H]. destruct e as [|key|name]; [done| |].
    + destruct H as (_ & d' & [= <-] & Hk). congruence.
    + destruct H as (d' & [= <-] & Hk & Hnone). congruence.
  - split.
    + intros [= <-]. split; [done|]. by exists d.
    + intros [_ H]. destruct e as [|key|name]; [done| |].
      * destruct H as (_ & d' & [= <-] & Hk). congruence.
      * destruct H as (d' & [= <-] & Hk & Hnone).
        assert (name = named) as -> by congruence. done.
Qed.

End Initialize.

(** ** The further properties on the scenarios *)

Section FurtherScenarios.

Import Scenario.

(** On a row of nodes adjacency is symmetric at the interior nodes. *)
Lemma line_adjacent_interior (n : nat) (x y : Z) :
  0 < x < Z.of_nat n - 1 → adjacent (line_grid n) x y ↔ adjacent (line_grid n) y x.
Proof.
  intros Hx. unfold adjacent. cbn [neighbor_row diagonal_row line_grid].
  rewrite !list_elem_of_filter, !elem_of_cons, !elem_of_nil. lia.
Qed.

(** The margin of the lake [{2}] and the neighbours of its nodes have an
    elevation in every array of five entries. *)
Lemma valley_margin_elevations (elevs : list Q) :
  length elevs = 5%nat →
  (∀ e, e ∈ get_lake_ext_margin (line_grid 5) [2] → is_Some (np.index elevs e)) ∧
  (∀ e n, e ∈ get_lake_ext_margin (line_grid 5) [2] → n ∈ neighbor_row (line_grid 5) e →
          is_Some (np.index elevs n)).
Proof.
  intros Hlen. destruct elevs as [|a [|b [|c [|d [|e' [|]]]]]]; try done.
  rewrite valley_margin. split.
  - intros e. rewrite !elem_of_cons, elem_of_nil. intros [->|[->|[]]]; by eexists.
  - intros e n. rewrite !elem_of_cons, elem_of_nil. intros [->|[->|[]]].
    + assert (neighbor_row (line_grid 5) 1 = [0; 2]) as -> by by vm_compute.
      rewrite !elem_of_cons, elem_of_nil. intros [->|[->|[]]]; by eexists.
    + assert (neighbor_row (line_grid 5) 3 = [2; 4]) as -> by by vm_compute.
      rewrite !elem_of_cons, elem_of_nil. intros [->|[->|[]]]; by eexists.
Qed.

(** A slope of 1 stays between 0 and 1 however often it is reduced. *)
Lemma reduced_slope_unit (k : nat) :
  (0 <= reduced_slope 1 k)%Q ∧ (reduced_slope 1 k <= 1)%Q.
Proof.
  induction k as [|k [IH0 IH1]]; [split; by compute|].
  unfold reduced_slope in *. rewrite Nat.iter_succ.
  set (r := Nat.iter k _ _) in *. clearbody r. split; lra.
Qed.

(** On the deep valley the tilt of the lake [{2}] by a slope between 0 and
    1 is made, and the test reports no change. *)
Lemma deep_valley_tilt_stable (s : Q) :
  (0 <= s)%Q → (s <= 1)%Q →
  ∃ tried,
    add_slopes (valley_collab []) s 3 deep_valley_world
    = Ok (tried, lake_of deep_valley_world 3) deep_valley_world ∧
    drainage_directions_change (valley_collab []) (lake_of deep_valley_world 3)
      (_elev deep_valley_world) tried (set_elev tried deep_valley_world)
    = Ok false (set_elev tried deep_valley_world).
Proof.
  intros Hs0 Hs1. set (C := valley_collab []). set (w := deep_valley_world).
  destruct (add_slopes_returns C s 3 w 3 0) as [new Hnew];
    [reflexivity|reflexivity|simpl; lia|].
  exists new. split; [done|].
  pose proof Hnew as (_ & _ & Hlen & _)%add_slopes_Ok.
  assert (Hlake : lake_of w 3 = [2]) by by vm_compute.
  rewrite Hlake in *.
  destruct (valley_margin_elevations (_elev w) eq_refl) as [He Hn].
  destruct (valley_margin_elevations new Hlen) as [_ Hn'].
  destruct (drainage_directions_change_returns C (_elev w) new [2] (set_elev new w))
    as [b Hb].
  { exact He. }
  { intros e n Hin Hnin. split; [by apply (Hn e n)|by apply (Hn' e n)]. }
  destruct b; [|done]. exfalso.
  pose proof (deep_valley_never_returns 1 s Hs0 Hs1) as Hnever.
  fold C w in Hnever.
  rewrite (apply_slope_current_lake_step C 0 s 3 false true w new [2] Hnew (λ _, Hb))
    in Hnever.
  done.
Qed.

(** X2, on the row of five nodes and the lake [{2}] *)
Lemma int_margin_of_ext_margin_witness :
  2 ∈ get_lake_int_margin (line_grid 5) [2] (get_lake_ext_margin (line_grid 5) [2]) ↔
  2 ∈ [2] ∧ (∃ y, (y ∉ [2]) ∧ adjacent (line_grid 5) 2 y).
Proof.
  apply (int_margin_of_ext_margin (line_grid 5) [2]).
  intros x y Hx%list_elem_of_singleton. subst x.
  apply line_adjacent_interior. simpl. lia.
Defined.

(** X3: the lake nodes given twice and in another order *)
Lemma get_lake_ext_margin_same_members_witness :
  get_lake_ext_margin (line_grid 5) [2; 1; 2] = get_lake_ext_margin (line_grid 5) [1; 2].
Proof.
  apply (get_lake_ext_margin_same_members (line_grid 5) [2; 1; 2] [1; 2]).
  intros x. rewrite !elem_of_cons, elem_of_nil. tauto.
Defined.

(** X5, on the valley *)
Lemma drainage_directions_change_same_witness :
  drainage_directions_change (valley_collab []) [2] valley valley valley_world
  = Ok false valley_world.
Proof.
  apply (drainage_directions_change_same (valley_collab []) [2] valley valley_world).
  - apply (proj1 (valley_margin_elevations valley eq_refl)).
  - apply (proj2 (valley_margin_elevations valley eq_refl)).
Defined.

(** X7: before the mapper has run no node is assigned to an outlet *)
Lemma add_slopes_no_lake_witness :
  add_slopes (valley_collab []) 1 3 valley_world = Ok (_elev valley_world, []) valley_world.
Proof.
  apply (add_slopes_no_lake (valley_collab []) 1 3 valley_world).
  - by eexists.
  - by eexists.
  - intros k. change (depression_outlet (_lf valley_world)) with (replicate 5 bad).
    intros [H _]%lookup_replicate. vm_compute in H. discriminate H.
Defined.

(** X8, on the filled valley: the first tilt is accepted *)
Lemma apply_slope_current_lake_returns_tilt_witness :
  ∃ (k : nat) (new_elevs : list Q),
    (k < 1)%nat ∧ (false = true → k = 0%nat) ∧
    add_slopes (valley_collab []) (reduced_slope 1 k) 3 filled_valley_world
    = Ok (new_elevs, lake_of filled_valley_world 3) filled_valley_world ∧
    set_elev [5; 3; 3; 2; 0]%Q filled_valley_world = set_elev new_elevs filled_valley_world ∧
    (false = false →
     relation_flips (_grid (valley_collab [])) (lake_of filled_valley_world 3)
       (_elev filled_valley_world) new_elevs) ∧
    (∀ j, (j < k)%nat →
       ∃ tried, add_slopes (valley_collab []) (reduced_slope 1 j) 3 filled_valley_world
                = Ok (tried, lake_of filled_valley_world 3) filled_valley_world ∧
                ¬ relation_flips (_grid (valley_collab [])) (lake_of filled_valley_world 3)
                    (_elev filled_valley_world) tried).
Proof.
  apply (apply_slope_current_lake_returns_tilt (valley_collab []) 1 1 3 false
           filled_valley_world (set_elev [5; 3; 3; 2; 0]%Q filled_valley_world) ()).
  vm_compute. reflexivity.
Defined.

(** X9, on the deep valley *)
Lemma apply_slope_current_lake_never_accepts_witness :
  apply_slope_current_lake (valley_collab []) 7 1 3 false deep_valley_world = OutOfFuel.
Proof.
  apply (apply_slope_current_lake_never_accepts (valley_collab []) 3 deep_valley_world 7 1%Q).
  intros k. apply deep_valley_tilt_stable; apply reduced_slope_unit.
Defined.

(** X10, on the valley: a sloped fill that returns *)
Lemma fill_pits_every_exit_witness :
  original_elev (sloped_valley_world (replicate 5 0)) = _elev valley_world ∧
  length (_elev (sloped_valley_world (replicate 5 0))) = length (_elev valley_world).
Proof.
  apply (proj1 (fill_pits_every_exit (valley_collab (replicate 5 0)) 5 (Some 1%Q)
                  valley_world) ()).
  vm_compute. reflexivity.
Defined.

(** X11, on the valley: a sloped fill that raises, the tilt in place *)
Lemma fill_pits_never_lowers_witness :
  Forall2 Qle (_elev valley_world) (_elev (tilted_valley_world [bad; bad; 3; bad; bad])).
Proof.
  destruct (fill_pits_never_lowers (valley_collab [bad; bad; 3; bad; bad]) 5 (Some 1%Q)
              valley_world) as [_ Hraise].
  - apply valley_depths_nonneg.
  - apply line_distances_nonneg.
  - intros s [= <-]. discriminate.
  - apply (Hraise (NameError "original_elev")). vm_compute. reflexivity.
Defined.

(** X12, on the valley *)
Lemma fill_pits_sloped_last_pass_witness :
  np.sum (lake_outlets (_lf (sloped_valley_world (replicate 5 0)))) = 0 ∧
  ∃ f l, map_depressions (valley_collab (replicate 5 0)) None false
           (_elev (sloped_valley_world (replicate 5 0))) f l
         = (at_node (sloped_valley_world (replicate 5 0)),
            _lf (sloped_valley_world (replicate 5 0))).
Proof.
  apply (fill_pits_sloped_last_pass (valley_collab (replicate 5 0)) 5 1%Q valley_world
           (sloped_valley_world (replicate 5 0)) ()).
  - reflexivity.
  - vm_compute. reflexivity.
Defined.

(** X13, on the valley: the lake [{2}] is filled to the level of node 3 *)
Lemma fill_pits_flat_fill_witness :
  let routed := route_flow (valley_collab []) (_elev valley_world) (at_node valley_world)
                  (_fr valley_world) in
  let mapped := map_depressions (valley_collab []) (Some (pit_node_ids routed.2)) false
                  (_elev valley_world) routed.1 (_lf valley_world) in
  at_node flat_valley_world = mapped.1 ∧ _lf flat_valley_world = mapped.2 ∧
  _fr flat_valley_world = routed.2 ∧
  ∃ d, mapped.1 !! "depression__depth" = Some d ∧
       iadd (_elev valley_world) d = Some (_elev flat_valley_world) ∧
       (length (sed_fill_depth valley_world) = length (_elev valley_world) →
        sed_fill_depth flat_valley_world
        = zip_with Qminus (_elev flat_valley_world) (_elev valley_world)).
Proof.
  apply (fill_pits_flat_fill (valley_collab []) 5 valley_world flat_valley_world ()).
  vm_compute. reflexivity.
Defined.

(** X14: a mapper that writes no field *)
Lemma fill_pits_no_depth_field_witness :
  ∃ w', fill_pits silent_collab 5 None valley_world
        = Raise (FieldError "depression__depth") w' ∧
        _elev w' = _elev valley_world ∧ sed_fill_depth w' = sed_fill_depth valley_world.
Proof.
  apply (fill_pits_no_depth_field silent_collab 5 None valley_world).
  - apply (left_id_L ∅ (∪)).
  - reflexivity.
Defined.

(** X15, on the valley: the exception of a sloped fill whose final test
    reports a change *)
Lemma fill_pits_never_StandardError_witness :
  not_fatal (NameError "original_elev") ∧
  ∀ msg, NameError "original_elev" ≠ StandardError msg.
Proof.
  apply (fill_pits_never_StandardError (valley_collab [bad; bad; 3; bad; bad]) 5
           (Some 1%Q) valley_world (tilted_valley_world [bad; bad; 3; bad; bad])).
  vm_compute. reflexivity.
Defined.

(** X16: a grid that holds its elevations in the field [surface], named by
    the input *)
Lemma initialize_elevation_field_witness :
  ∃ w, Init.initialize renamed_fields 5 (no_lakes 5) {| pit_node_ids := [] |}
         (Some ({["ELEVATION_FIELD_NAME" := "surface"]} : gmap string string))
       = inr ("surface", w) ∧ _elev w = valley.
Proof.
  apply (proj2 (proj2 (initialize_elevation_field renamed_fields 5 (no_lakes 5)
                         {| pit_node_ids := [] |}
                         (Some ({["ELEVATION_FIELD_NAME" := "surface"]}
                                : gmap string string))))
           ({["ELEVATION_FIELD_NAME" := "surface"]} : gmap string string)
           "surface" valley).
  - vm_compute. reflexivity.
  - reflexivity.
  - vm_compute. reflexivity.
  - vm_compute. reflexivity.
Defined.

End FurtherScenarios.
